(** * thrift-client-pool: a shallow embedding of the channel client pool

    The development follows [clientpool.go].  The pool is a Go struct holding
    a buffered channel of idle clients, a [uint32] counter of opened
    connections and the immutable configuration.  The embedding keeps

    - the pool struct as a record, the channel as a bounded FIFO queue, a nil
      channel as [None];
    - [uint32] as [Z] with the wrap-around written out;
    - the handles ([*pooledClient]) in a heap addressed by index, because
      [Close] mutates the handle through its pointer;
    - every call the pool makes to a collaborator (thrift socket, client
      factory, reflection on the client, transport close) as an entry of a
      log, in program order;
    - panics as an outcome of their own.

    The older variant of the same file (blocking drain loop, counter guarded
    by the mutex) lives in [Module Legacy]. *)

From stdpp Require Import base decidable option list strings.
From Stdlib Require Import ZArith Lia.

Local Open Scope Z_scope.

(** ** Errors *)

(** The package-level error values.  Go compares them by identity, so an error
    coming from the thrift library ([ErrForeign]) is never equal to one of the
    pool's own. *)
Inductive error : Type :=
| ErrPoolClosed
| ErrPoolMaxOpenReached
| ErrClientMissingTransportField
| ErrClientNilTransportField
| errNoPooledClient
| ErrForeign (msg : string).

#[global] Instance error_eq_dec : EqDecision error.
Proof. solve_decision. Defined.

(** ** Collaborators *)

(** [*thrift.TSocket]: the address it was created for and its identity. *)
Record TSocket : Type := { sock_addr : string; sock_id : nat }.

(** [thrift.TTransport] as the pool sees it: an identity and what its
    [Close()] reports. *)
Record TTransport : Type := { tr_id : nat; tr_Close : option error }.

(** What [reflect.ValueOf(cli).Elem().FieldByName("Transport")] finds.
    [FieldInvalid] stands for every shape on which the reflective lookup or
    the type assertion panics: a non-nil field value that is not a
    [thrift.TTransport], a field of a kind that has no nil, a client that is
    not a pointer to a struct. *)
Inductive TransportField : Type :=
| FieldMissing
| FieldNil
| FieldInvalid
| FieldTransport (t : TTransport).

Record ClientObj : Type := { client_id : nat; Transport : TransportField }.

(** [type Client interface{}]: nil or a client object. *)
Definition Client : Type := option ClientObj.

#[global] Instance TSocket_eq_dec : EqDecision TSocket.
Proof. solve_decision. Defined.
#[global] Instance TTransport_eq_dec : EqDecision TTransport.
Proof. solve_decision. Defined.
#[global] Instance TransportField_eq_dec : EqDecision TransportField.
Proof. solve_decision. Defined.
#[global] Instance ClientObj_eq_dec : EqDecision ClientObj.
Proof. solve_decision. Defined.

(** The calls the pool makes to its collaborators. *)
Inductive event : Type :=
| EvNewTSocket (server : string)
| EvSetTimeout (s : TSocket) (d : Z)
| EvOpen (s : TSocket)
| EvFactory (s : TSocket)
| EvFieldByName (c : ClientObj)
| EvTransportClose (t : TTransport).

#[global] Instance event_eq_dec : EqDecision event.
Proof. solve_decision. Defined.

(** What the outside world answers during one [Get]: the value of
    [rand.Int()], the result of [thrift.NewTSocket] and of [socket.Open]. *)
Record Net : Type := {
  rand_Int : Z;
  NewTSocket : string -> TSocket + error;
  Open : TSocket -> option error
}.

(** ** Channels *)

(** [chan Client] made with [make(chan Client, cap)]. *)
Record chan : Type := { cap : Z; buf : list Client }.

Definition len (ch : chan) : Z := Z.of_nat (length (buf ch)).

(** [select { case ch <- c: ... default: ... }] *)
Definition try_send (ch : chan) (c : Client) : option chan :=
  if len ch <? cap ch then Some {| cap := cap ch; buf := buf ch ++ [c] |}
  else None.

(** [select { case c := <-ch: ... default: ... }] *)
Definition try_recv (ch : chan) : option (Client * chan) :=
  match buf ch with
  | [] => None
  | c :: rest => Some (c, {| cap := cap ch; buf := rest |})
  end.

(** ** The pool and its handles *)

Record ChannelClientPool : Type := {
  clients : option chan;
  opened : Z;
  maxIdle : Z;
  maxOpen : Z;
  servers : list string;
  connectTimeout : Z;
  readTimeout : Z;
  clientFactory : TSocket -> Client
}.

(** [pooledClient]; its [pool] field always points to the one pool of the
    state and is left out. *)
Record pooledClient : Type := { pc_Client : Client; unusable : bool }.

Record State : Type := {
  pool : ChannelClientPool;
  heap : list pooledClient;
  log : list event
}.

Definition uint32_mod : Z := 2 ^ 32.
Definition wrap32 (z : Z) : Z := z mod uint32_mod.

(** [^uint32(0)] *)
Definition uint32_max : Z := 4294967295.

(** ** The monad of pool operations *)

Inductive outcome (A : Type) : Type :=
| Ret (a : A)
| Panic
| Blocked
| OutOfFuel.
Arguments Ret {A} a.
Arguments Panic {A}.
Arguments Blocked {A}.
Arguments OutOfFuel {A}.

Definition M (A : Type) : Type := State -> outcome A * State.

Definition ret {A} (a : A) : M A := fun s => (Ret a, s).

Definition bind {A B} (m : M A) (k : A -> M B) : M B :=
  fun s =>
    match m s with
    | (Ret a, s') => k a s'
    | (Panic, s') => (Panic, s')
    | (Blocked, s') => (Blocked, s')
    | (OutOfFuel, s') => (OutOfFuel, s')
    end.

Notation "'let*' x ':=' c1 'in' c2" := (bind c1 (fun x => c2))
  (at level 10, x name, c1 at level 100, c2 at level 200, only parsing).
Notation "c1 ;> c2" := (bind c1 (fun _ => c2))
  (at level 100, c2 at level 200, only parsing, right associativity).

Definition panic {A} : M A := fun s => (Panic, s).
Definition block {A} : M A := fun s => (Blocked, s).
Definition out_of_fuel {A} : M A := fun s => (OutOfFuel, s).

(** Field updates of the state. *)
Definition with_clients (c : option chan) (s : State) : State :=
  {| pool := {| clients := c; opened := opened (pool s);
                maxIdle := maxIdle (pool s); maxOpen := maxOpen (pool s);
                servers := servers (pool s);
                connectTimeout := connectTimeout (pool s);
                readTimeout := readTimeout (pool s);
                clientFactory := clientFactory (pool s) |};
     heap := heap s; log := log s |}.

Definition with_opened (n : Z) (s : State) : State :=
  {| pool := {| clients := clients (pool s); opened := n;
                maxIdle := maxIdle (pool s); maxOpen := maxOpen (pool s);
                servers := servers (pool s);
                connectTimeout := connectTimeout (pool s);
                readTimeout := readTimeout (pool s);
                clientFactory := clientFactory (pool s) |};
     heap := heap s; log := log s |}.

Definition with_heap (hp : list pooledClient) (s : State) : State :=
  {| pool := pool s; heap := hp; log := log s |}.

Definition with_log (l : list event) (s : State) : State :=
  {| pool := pool s; heap := heap s; log := l |}.

Definition get_pool : M ChannelClientPool := fun s => (Ret (pool s), s).

Definition set_clients (c : option chan) : M unit :=
  fun s => (Ret tt, with_clients c s).

Definition set_opened (n : Z) : M unit :=
  fun s => (Ret tt, with_opened n s).

(** [atomic.AddUint32(&pool.opened, d)] *)
Definition atomic_AddUint32_opened (d : Z) : M unit :=
  let* p := get_pool in set_opened (wrap32 (opened p + d)).

Definition emit (e : event) : M unit :=
  fun s => (Ret tt, with_log (log s ++ [e]) s).

(** [&pooledClient{...}] *)
Definition alloc (c : pooledClient) : M nat :=
  fun s => (Ret (length (heap s)), with_heap (heap s ++ [c]) s).

(** Reading through a handle pointer; a pointer to nothing cannot be built in
    Go, the model panics on one. *)
Definition deref (h : nat) : M pooledClient := fun s =>
  match heap s !! h with
  | Some c => (Ret c, s)
  | None => (Panic, s)
  end.

Definition store (h : nat) (c : pooledClient) : M unit :=
  fun s => (Ret tt, with_heap (<[h := c]> (heap s)) s).

(** ** clientpool.go *)

Definition NewChannelClientPool (maxIdle maxOpen : Z) (servers : list string)
    (connectTimeout readTimeout : Z) (clientFactory : TSocket -> Client)
  : ChannelClientPool :=
  {| clients := Some {| cap := maxIdle; buf := [] |};
     opened := 0;
     maxIdle := maxIdle;
     maxOpen := maxOpen;
     servers := servers;
     connectTimeout := connectTimeout;
     readTimeout := readTimeout;
     clientFactory := clientFactory |}.

Definition closeClient (cli : Client) : M (option error) :=
  match cli with
  | None => ret None
  | Some c =>
      let* p := get_pool in
      (if maxOpen p =? 0 then ret tt else atomic_AddUint32_opened uint32_max) ;>
      emit (EvFieldByName c) ;>
      match Transport c with
      | FieldMissing => ret (Some ErrClientMissingTransportField)
      | FieldNil => ret (Some ErrClientNilTransportField)
      | FieldInvalid => panic
      | FieldTransport t => emit (EvTransportClose t) ;> ret (tr_Close t)
      end
  end.

(** [pool.servers[rand.Int()%len(pool.servers)]]: Go's [%] truncates
    ([Z.rem]), dividing by zero panics, and so does an index out of range. *)
Definition pick_server (r : Z) (l : list string) : option string :=
  if Z.of_nat (length l) =? 0 then None
  else
    let i := Z.rem r (Z.of_nat (length l)) in
    if i <? 0 then None else l !! Z.to_nat i.

Definition openClient (net : Net) : M (Client * option error) :=
  let* p := get_pool in
  if negb (maxOpen p =? 0) && (maxOpen p <=? opened p)
  then ret (None, Some ErrPoolMaxOpenReached)
  else
    match pick_server (rand_Int net) (servers p) with
    | None => panic
    | Some server =>
        emit (EvNewTSocket server) ;>
        match NewTSocket net server with
        | inr e => ret (None, Some e)
        | inl socket =>
            emit (EvSetTimeout socket (connectTimeout p)) ;>
            emit (EvOpen socket) ;>
            match Open net socket with
            | Some e => ret (None, Some e)
            | None =>
                emit (EvSetTimeout socket (readTimeout p)) ;>
                (if maxOpen p =? 0 then ret tt else atomic_AddUint32_opened 1) ;>
                emit (EvFactory socket) ;>
                ret (clientFactory p socket, None)
            end
        end
    end.

Definition getFromPool : M (Client * option error) :=
  let* p := get_pool in
  match clients p with
  | None => ret (None, Some ErrPoolClosed)
  | Some ch =>
      match try_recv ch with
      | Some (rawCli, ch') => set_clients (Some ch') ;> ret (rawCli, None)
      | None => ret (None, Some errNoPooledClient)
      end
  end.

(** A [PooledClient] interface value: nil or a pointer to a handle. *)
Definition PooledClient : Type := option nat.

Definition Get (net : Net) : M (PooledClient * option error) :=
  let* r := getFromPool in
  let '(rawCli, err) := r in
  if decide (err = Some ErrPoolClosed) then ret (None, err)
  else
    match rawCli with
    | None =>
        let* r' := openClient net in
        let '(rawCli', err') := r' in
        match err' with
        | Some _ => ret (None, err')
        | None =>
            let* h := alloc {| pc_Client := rawCli'; unusable := false |} in
            ret (Some h, err')
        end
    | Some _ =>
        let* h := alloc {| pc_Client := rawCli; unusable := false |} in
        ret (Some h, err)
    end.

(** The drain loop of [Close]: [for { select { case rawCli := <-clients: ...
    default: return } }].  A receive from a nil channel is never ready, the
    [default] branch runs. *)
Fixpoint drain (fuel : nat) (clients : option chan) (err : option error)
  : M (option error) :=
  match fuel with
  | O => out_of_fuel
  | S fuel' =>
      match clients with
      | None => ret err
      | Some ch =>
          match try_recv ch with
          | None => ret err
          | Some (rawCli, ch') =>
              let* curErr := closeClient rawCli in
              drain fuel' (Some ch')
                (match err with None => curErr | Some _ => err end)
          end
      end
  end.

Definition Close (fuel : nat) : M (option error) :=
  let* p := get_pool in
  let clients := clients p in
  set_clients None ;>
  drain fuel clients None.

Definition Size : M Z :=
  let* p := get_pool in
  ret (match clients p with None => 0 | Some ch => len ch end).

Definition closePooledClient (h : nat) : M (option error) :=
  let* cli := deref h in
  if unusable cli then closeClient (pc_Client cli)
  else
    let* p := get_pool in
    match clients p with
    | None => ret tt
    | Some ch =>
        match try_send ch (pc_Client cli) with
        | Some ch' =>
            set_clients (Some ch') ;>
            store h {| pc_Client := None; unusable := unusable cli |}
        | None => ret tt
        end
    end ;>
    let* cli' := deref h in
    closeClient (pc_Client cli').

(** The methods of [*pooledClient]. *)
Definition pooledClient_Close (h : nat) : M (option error) :=
  closePooledClient h.

Definition RawClient (h : nat) : M Client :=
  let* cli := deref h in ret (pc_Client cli).

Definition MarkUnusable (h : nat) : M unit :=
  let* cli := deref h in store h {| pc_Client := pc_Client cli; unusable := true |}.

(** ** Observations on a state *)

(** The content of the idle buffer; a closed pool holds nothing. *)
Definition idle_buf (s : State) : list Client :=
  match clients (pool s) with
  | None => []
  | Some ch => buf ch
  end.

(** Number of teardowns started on [c]: [closeClient] inspects the client by
    reflection once per call on a non-nil client, and nowhere else. *)
Definition teardowns (c : ClientObj) (l : list event) : nat :=
  length (filter (fun e => e = EvFieldByName c) l).

Definition returned_to_idle (c : ClientObj) (s s' : State) : bool :=
  bool_decide (idle_buf s' = idle_buf s ++ [Some c]).

Definition torn_down (c : ClientObj) (s s' : State) : bool :=
  bool_decide (teardowns c (log s') = S (teardowns c (log s))).

(** The value [closeClient] returns for a client, and the collaborator calls
    it makes: used to describe what the drain loop of [Close] does.  Where
    [closeClient] panics there is no value; the statements that use
    [teardown_result] leave such clients out ([well_shaped]). *)
Definition teardown_result (cli : Client) : option error :=
  match cli with
  | None => None
  | Some c =>
      match Transport c with
      | FieldMissing => Some ErrClientMissingTransportField
      | FieldNil => Some ErrClientNilTransportField
      | FieldInvalid => None
      | FieldTransport t => tr_Close t
      end
  end.

Definition teardown_events (cli : Client) : list event :=
  match cli with
  | None => []
  | Some c =>
      EvFieldByName c ::
      match Transport c with
      | FieldTransport t => [EvTransportClose t]
      | _ => []
      end
  end.

(** The state right after [closeClient] has passed its nil test, adjusted the
    counter and looked the field up. *)
Definition teardown_started (c : ClientObj) (s : State) : State :=
  with_log (log s ++ [EvFieldByName c])
    (with_opened
       (if maxOpen (pool s) =? 0 then opened (pool s)
        else wrap32 (opened (pool s) - 1)) s).

(** The idle clients torn down one after the other, as the drain loop does. *)
Definition teardown_all (l : list Client) (s : State) : State :=
  fold_left (fun s c => snd (closeClient c s)) l s.

(** A client on which [closeClient] does not panic. *)
Definition well_shaped (cli : Client) : Prop :=
  match cli with
  | Some c => Transport c <> FieldInvalid
  | None => True
  end.

(** [if err == nil { err = curErr }] over the results of a run of teardowns. *)
Fixpoint first_error (l : list (option error)) : option error :=
  match l with
  | [] => None
  | Some e :: _ => Some e
  | None :: rest => first_error rest
  end.

(** [opened] after [n] decrements of the [uint32] counter. *)
Fixpoint decr_opened (n : nat) (o : Z) : Z :=
  match n with
  | O => o
  | S n' => decr_opened n' (wrap32 (o - 1))
  end.

(** The non-nil entries of a buffer. *)
Fixpoint live_count (l : list Client) : nat :=
  match l with
  | [] => O
  | Some _ :: rest => S (live_count rest)
  | None :: rest => live_count rest
  end.

(** [closeClient] touches the counter and the log, nothing else. *)
Definition same_frame (s s' : State) : Prop :=
  clients (pool s') = clients (pool s) /\
  heap s' = heap s /\
  maxIdle (pool s') = maxIdle (pool s) /\
  maxOpen (pool s') = maxOpen (pool s) /\
  servers (pool s') = servers (pool s) /\
  clientFactory (pool s') = clientFactory (pool s).

(** What a release through handle [h] may do to the idle buffer and to the
    heap of handles: nothing, or append the client of a usable handle to a
    buffer that has room and clear the handle. *)
Definition release_shape (h : nat) (s s' : State) : Prop :=
  maxIdle (pool s') = maxIdle (pool s) /\
  clientFactory (pool s') = clientFactory (pool s) /\
  ((clients (pool s') = clients (pool s) /\ heap s' = heap s) \/
   (exists cli ch,
      heap s !! h = Some cli /\ unusable cli = false /\
      clients (pool s) = Some ch /\ len ch < cap ch /\
      clients (pool s') =
        Some {| cap := cap ch; buf := buf ch ++ [pc_Client cli] |} /\
      heap s' = <[h := {| pc_Client := None; unusable := false |}]> (heap s))).

(** What [Get] may do to them: pop the head of the buffer or leave it, and
    allocate at most one handle, for an idle client or for one the factory
    made from a socket of this call. *)
Definition acquire_shape (net : Net) (s s' : State) : Prop :=
  maxIdle (pool s') = maxIdle (pool s) /\
  clientFactory (pool s') = clientFactory (pool s) /\
  (clients (pool s') = clients (pool s) \/
   exists ch c rest,
     clients (pool s) = Some ch /\ buf ch = c :: rest /\
     clients (pool s') = Some {| cap := cap ch; buf := rest |}) /\
  (heap s' = heap s \/
   exists rawCli,
     heap s' = heap s ++ [{| pc_Client := rawCli; unusable := false |}] /\
     (rawCli ∈ idle_buf s \/
      exists server socket,
        NewTSocket net server = inl socket /\
        rawCli = clientFactory (pool s) socket)).

(** The bound on the idle buffer: the channel was made with capacity
    [maxIdle] and holds no more than that. *)
Definition idle_bounded (k : Z) (s : State) : Prop :=
  maxIdle (pool s) = k /\
  match clients (pool s) with
  | None => True
  | Some ch => cap ch = k /\ len ch <= k
  end.

(** The client [c] is out of reach of the pool: not idle, and every handle
    that still refers to it is marked unusable. *)
Definition retired (c : ClientObj) (s : State) : Prop :=
  (Some c ∉ idle_buf s) /\
  forall h cli,
    heap s !! h = Some cli -> pc_Client cli = Some c -> unusable cli = true.

(** ** Sequences of calls *)

Inductive op : Type :=
| OpGet (net : Net)
| OpRawClient (h : nat)
| OpMarkUnusable (h : nat)
| OpHandleClose (h : nat)
| OpClose
| OpSize.

(** One call of the API on the current state; the drain loop of [Close] gets
    one round more than there are idle clients. *)
Definition exec (o : op) (s : State) : State :=
  match o with
  | OpGet net => snd (Get net s)
  | OpRawClient h => snd (RawClient h s)
  | OpMarkUnusable h => snd (MarkUnusable h s)
  | OpHandleClose h => snd (pooledClient_Close h s)
  | OpClose => snd (Close (S (length (idle_buf s))) s)
  | OpSize => snd (Size s)
  end.

Definition run (ops : list op) (s : State) : State :=
  fold_left (fun s o => exec o s) ops s.

Definition init (p : ChannelClientPool) : State :=
  {| pool := p; heap := []; log := [] |}.

(** No [Get] of the sequence builds the client [c] anew. *)
Definition fresh_for (c : ClientObj) (factory : TSocket -> Client) (o : op) : Prop :=
  match o with
  | OpGet net =>
      forall server socket,
        NewTSocket net server = inl socket -> factory socket <> Some c
  | _ => True
  end.

(** ** Goroutines calling [Get] concurrently *)

(** Where a goroutine stands inside [Get].  The cuts are the points where the
    code touches the shared pool: [getFromPool] runs under [pool.mu], the
    ceiling test is one [atomic.LoadUint32], the increment one
    [atomic.AddUint32]; the dial in between touches the socket only. *)
Inductive pc : Type :=
| PcGetFromPool
| PcCeiling
| PcDial
| PcCount (socket : TSocket)
| PcFactory (socket : TSocket)
| PcWrap (rawCli : Client) (err : option error)
| PcDone (r : PooledClient * option error)
| PcPanic.

Definition thread_step (net : Net) (p : pc) (s : State) : pc * State :=
  match p with
  | PcGetFromPool =>
      match getFromPool s with
      | (Ret (rawCli, err), s') =>
          if decide (err = Some ErrPoolClosed) then (PcDone (None, err), s')
          else
            match rawCli with
            | None => (PcCeiling, s')
            | Some _ => (PcWrap rawCli err, s')
            end
      | (_, s') => (PcPanic, s')
      end
  | PcCeiling =>
      if negb (maxOpen (pool s) =? 0) && (maxOpen (pool s) <=? opened (pool s))
      then (PcDone (None, Some ErrPoolMaxOpenReached), s)
      else (PcDial, s)
  | PcDial =>
      match pick_server (rand_Int net) (servers (pool s)) with
      | None => (PcPanic, s)
      | Some server =>
          let s1 := snd (emit (EvNewTSocket server) s) in
          match NewTSocket net server with
          | inr e => (PcDone (None, Some e), s1)
          | inl socket =>
              let s2 :=
                snd ((emit (EvSetTimeout socket (connectTimeout (pool s))) ;>
                      emit (EvOpen socket)) s1) in
              match Open net socket with
              | Some e => (PcDone (None, Some e), s2)
              | None =>
                  (PcCount socket,
                   snd (emit (EvSetTimeout socket (readTimeout (pool s))) s2))
              end
          end
      end
  | PcCount socket =>
      (PcFactory socket,
       if maxOpen (pool s) =? 0 then s
       else snd (atomic_AddUint32_opened 1 s))
  | PcFactory socket =>
      (PcWrap (clientFactory (pool s) socket) None,
       snd (emit (EvFactory socket) s))
  | PcWrap rawCli err =>
      match alloc {| pc_Client := rawCli; unusable := false |} s with
      | (Ret h, s') => (PcDone (Some h, err), s')
      | (_, s') => (PcPanic, s')
      end
  | PcDone r => (PcDone r, s)
  | PcPanic => (PcPanic, s)
  end.

(** A goroutine running on its own for [n] steps. *)
Fixpoint thread_run (n : nat) (net : Net) (p : pc) (s : State) : pc * State :=
  match n with
  | O => (p, s)
  | S n' =>
      let '(p', s') := thread_step net p s in
      thread_run n' net p' s'
  end.

Record Config : Type := { shared : State; threads : list (Net * pc) }.

(** The scheduler lets goroutine [i] take its next step. *)
Definition sched (c : Config) (i : nat) : Config :=
  match threads c !! i with
  | None => c
  | Some (net, p) =>
      let '(p', s') := thread_step net p (shared c) in
      {| shared := s'; threads := <[i := (net, p')]> (threads c) |}
  end.

Definition interleave (schedule : list nat) (c : Config) : Config :=
  fold_left sched schedule c.

Definition spawn (nets : list Net) (s : State) : Config :=
  {| shared := s; threads := map (fun n => (n, PcGetFromPool)) nets |}.

(** A goroutine that has returned from [Get] with a handle. *)
Definition holds_handle (t : Net * pc) : bool :=
  match snd t with
  | PcDone (Some _, None) => true
  | _ => false
  end.

(** ** The older variant of the pool *)

Module Legacy.

Definition getClients : M (option chan) :=
  let* p := get_pool in ret (clients p).

Definition maxOpenReached : M bool :=
  let* p := get_pool in
  if maxOpen p =? 0 then ret false
  else ret (maxOpen p <=? opened p).

Definition openClient (net : Net) : M (Client * option error) :=
  let* p := get_pool in
  match pick_server (rand_Int net) (servers p) with
  | None => panic
  | Some server =>
      emit (EvNewTSocket server) ;>
      match NewTSocket net server with
      | inr e => ret (None, Some e)
      | inl socket =>
          emit (EvSetTimeout socket (connectTimeout p)) ;>
          emit (EvOpen socket) ;>
          match Open net socket with
          | Some e => ret (None, Some e)
          | None =>
              emit (EvSetTimeout socket (readTimeout p)) ;>
              (let* q := get_pool in set_opened (wrap32 (opened q + 1))) ;>
              emit (EvFactory socket) ;>
              ret (clientFactory p socket, None)
          end
      end
  end.

Definition closeClient (cli : Client) : M (option error) :=
  match cli with
  | None => ret None
  | Some c =>
      emit (EvFieldByName c) ;>
      match Transport c with
      | FieldMissing => ret (Some ErrClientMissingTransportField)
      | FieldNil => ret (Some ErrClientNilTransportField)
      | FieldInvalid => panic
      | FieldTransport t =>
          (let* q := get_pool in set_opened (wrap32 (opened q - 1))) ;>
          emit (EvTransportClose t) ;>
          ret (tr_Close t)
      end
  end.

(** The channel is never closed, so a receive always yields [ok = true]. *)
Definition Get (net : Net) : M (PooledClient * option error) :=
  let* clients := getClients in
  match clients with
  | None => ret (None, Some ErrPoolClosed)
  | Some ch =>
      let* rawCli :=
        match try_recv ch with
        | Some (c, ch') => set_clients (Some ch') ;> ret c
        | None => ret None
        end in
      match rawCli with
      | None =>
          let* full := maxOpenReached in
          if full then ret (None, Some ErrPoolMaxOpenReached)
          else
            let* r := openClient net in
            let '(rawCli', err) := r in
            match err with
            | Some _ => ret (None, err)
            | None =>
                let* h := alloc {| pc_Client := rawCli'; unusable := false |} in
                ret (Some h, None)
            end
      | Some _ =>
          let* h := alloc {| pc_Client := rawCli; unusable := false |} in
          ret (Some h, None)
      end
  end.

(** [for { rawCli, ok := <-clients; if !ok { break }; ... }]: a plain
    receive.  On an empty channel that nobody closes, and on a nil channel,
    it waits for ever. *)
Fixpoint drain (fuel : nat) (clients : option chan) (err : option error)
  : M (option error) :=
  match fuel with
  | O => out_of_fuel
  | S fuel' =>
      match clients with
      | None => block
      | Some ch =>
          match try_recv ch with
          | None => block
          | Some (rawCli, ch') =>
              let* curErr := closeClient rawCli in
              drain fuel' (Some ch')
                (match err with None => curErr | Some _ => err end)
          end
      end
  end.

Definition Close (fuel : nat) : M (option error) :=
  let* p := get_pool in
  let clients := clients p in
  set_clients None ;>
  drain fuel clients None.

Definition Size : M Z :=
  let* p := get_pool in
  ret (match clients p with None => 0 | Some ch => len ch end).

(** A send on a nil channel is never ready. *)
Definition closePooledClient (h : nat) : M (option error) :=
  let* cli := deref h in
  if negb (unusable cli) then
    let* p := get_pool in
    match clients p with
    | None => closeClient (pc_Client cli)
    | Some ch =>
        match try_send ch (pc_Client cli) with
        | Some ch' => set_clients (Some ch') ;> ret None
        | None => closeClient (pc_Client cli)
        end
    end
  else closeClient (pc_Client cli).

(** A goroutine inside this [Get]: the receive, then [maxOpenReached]
    under the mutex, then the dial without it, then the increment and the
    factory call under the mutex again. *)
Definition thread_step (net : Net) (p : pc) (s : State) : pc * State :=
  match p with
  | PcGetFromPool =>
      match clients (pool s) with
      | None => (PcDone (None, Some ErrPoolClosed), s)
      | Some ch =>
          match try_recv ch with
          | Some (Some c, ch') =>
              (PcWrap (Some c) None, with_clients (Some ch') s)
          | Some (None, ch') => (PcCeiling, with_clients (Some ch') s)
          | None => (PcCeiling, s)
          end
      end
  | PcCeiling =>
      match maxOpenReached s with
      | (Ret true, s') => (PcDone (None, Some ErrPoolMaxOpenReached), s')
      | (Ret false, s') => (PcDial, s')
      | (_, s') => (PcPanic, s')
      end
  | PcDial =>
      match pick_server (rand_Int net) (servers (pool s)) with
      | None => (PcPanic, s)
      | Some server =>
          let s1 := snd (emit (EvNewTSocket server) s) in
          match NewTSocket net server with
          | inr e => (PcDone (None, Some e), s1)
          | inl socket =>
              let s2 :=
                snd ((emit (EvSetTimeout socket (connectTimeout (pool s))) ;>
                      emit (EvOpen socket)) s1) in
              match Open net socket with
              | Some e => (PcDone (None, Some e), s2)
              | None =>
                  (PcCount socket,
                   snd (emit (EvSetTimeout socket (readTimeout (pool s))) s2))
              end
          end
      end
  | PcCount socket =>
      (PcWrap (clientFactory (pool s) socket) None,
       snd (((let* q := get_pool in set_opened (wrap32 (opened q + 1))) ;>
             emit (EvFactory socket)) s))
  | PcFactory socket => (PcPanic, s) (* not a state of this variant *)
  | PcWrap rawCli err =>
      match alloc {| pc_Client := rawCli; unusable := false |} s with
      | (Ret h, s') => (PcDone (Some h, err), s')
      | (_, s') => (PcPanic, s')
      end
  | PcDone r => (PcDone r, s)
  | PcPanic => (PcPanic, s)
  end.

Fixpoint thread_run (n : nat) (net : Net) (p : pc) (s : State) : pc * State :=
  match n with
  | O => (p, s)
  | S n' =>
      let '(p', s') := thread_step net p s in
      thread_run n' net p' s'
  end.

Definition sched (c : Config) (i : nat) : Config :=
  match threads c !! i with
  | None => c
  | Some (net, p) =>
      let '(p', s') := thread_step net p (shared c) in
      {| shared := s'; threads := <[i := (net, p')]> (threads c) |}
  end.

Definition interleave (schedule : list nat) (c : Config) : Config :=
  fold_left sched schedule c.

End Legacy.

(** ** Sample collaborators, used to run the definitions *)

Module Sample.

(** A network where every dial succeeds; the socket gets identity [id]. *)
Definition net_ok (id : nat) : Net :=
  {| rand_Int := 7;
     NewTSocket := fun a => inl {| sock_addr := a; sock_id := id |};
     Open := fun _ => None |}.

(** A network where the connection is refused. *)
Definition net_refused : Net :=
  {| rand_Int := 7;
     NewTSocket := fun a => inl {| sock_addr := a; sock_id := 0 |};
     Open := fun _ => Some (ErrForeign "connection refused") |}.

Definition transport_of (id : nat) : TTransport :=
  {| tr_id := id; tr_Close := None |}.

Definition client_of (id : nat) : ClientObj :=
  {| client_id := id; Transport := FieldTransport (transport_of id) |}.

(** A factory as thrift generates them: the client keeps the transport. *)
Definition factory (socket : TSocket) : Client :=
  Some (client_of (sock_id socket)).

Definition pool_1_1 : ChannelClientPool :=
  NewChannelClientPool 1 1 ["10.0.0.1:9090"%string] 100 500 factory.

Definition pool_1_0 : ChannelClientPool :=
  NewChannelClientPool 1 0 ["10.0.0.1:9090"%string] 100 500 factory.

(** A client whose transport fails to close. *)
Definition stuck_client (id : nat) : ClientObj :=
  {| client_id := id;
     Transport :=
       FieldTransport
         {| tr_id := id; tr_Close := Some (ErrForeign "close failed") |} |}.

(** A pool with three idle clients, the second one stuck, and one handle
    still checked out. *)
Definition three_idle : State :=
  {| pool :=
       {| clients :=
            Some {| cap := 3;
                    buf := [Some (client_of 0); Some (stuck_client 1);
                            Some (client_of 2)] |};
          opened := 4; maxIdle := 3; maxOpen := 8;
          servers := ["10.0.0.1:9090"%string];
          connectTimeout := 100; readTimeout := 500;
          clientFactory := factory |};
     heap := [{| pc_Client := Some (client_of 3); unusable := false |}];
     log := [] |}.

End Sample.

(** ** Goroutines between the ceiling test and the increment *)

(** A goroutine that has passed the ceiling test of [openClient] and has not
    yet added to [opened]. *)
Definition inflight (p : pc) : bool :=
  match p with
  | PcDial | PcCount _ => true
  | _ => false
  end.

Fixpoint count_inflight (l : list (Net * pc)) : Z :=
  match l with
  | [] => 0
  | t :: rest => (if inflight (snd t) then 1 else 0) + count_inflight rest
  end.

(** ** Scoped use of a handle *)

(** The closures of [TestGet], which are the pattern of the README: [Get],
    [defer pooledClient.Close()], [RawClient], the remote call, and
    [MarkUnusable] when the call failed ([mark]).  [t.Error] does not stop the
    closure, so after a failed [Get] the [defer] evaluates the method of a nil
    interface and panics. *)
Definition session (net : Net) (mark : bool) : M unit :=
  let* r := Get net in
  let '(pooledClient, err) := r in
  match pooledClient with
  | None => panic
  | Some h =>
      let* rawClient := RawClient h in
      (if mark then MarkUnusable h else ret tt) ;>
      let* closed := pooledClient_Close h in
      ret tt
  end.

Definition sessions (l : list (Net * bool)) (s : State) : State :=
  fold_left (fun s nm => snd (session (fst nm) (snd nm) s)) l s.

(** The counter agrees with the pool: the pool is open, every idle entry is
    a client, and [opened] is the number of idle clients, within the
    ceiling. *)
Definition accounted (s : State) : Prop :=
  exists ch,
    clients (pool s) = Some ch /\
    Forall (fun c : Client => c <> None) (buf ch) /\
    len ch <= cap ch /\
    opened (pool s) = len ch /\
    0 < maxOpen (pool s) < 2 ^ 32 /\
    opened (pool s) <= maxOpen (pool s).

(** The same with one connection checked out: the counter is one ahead of
    the idle buffer. *)
Definition one_checked_out (s : State) : Prop :=
  exists ch,
    clients (pool s) = Some ch /\
    Forall (fun c : Client => c <> None) (buf ch) /\
    len ch <= cap ch /\
    opened (pool s) = len ch + 1 /\
    0 < maxOpen (pool s) < 2 ^ 32 /\
    opened (pool s) <= maxOpen (pool s).

(** The state [openClient] leaves after a successful dial of [server]. *)
Definition dialed (server : string) (socket : TSocket) (s : State) : State :=
  with_log (log s ++ [EvNewTSocket server;
                      EvSetTimeout socket (connectTimeout (pool s));
                      EvOpen socket;
                      EvSetTimeout socket (readTimeout (pool s));
                      EvFactory socket])
    (with_opened
       (if maxOpen (pool s) =? 0 then opened (pool s)
        else wrap32 (opened (pool s) + 1)) s).

(** A network on which the dial of this call succeeds with [socket]. *)
Definition dials (net : Net) (l : list string) (server : string)
    (socket : TSocket) : Prop :=
  pick_server (rand_Int net) l = Some server /\
  NewTSocket net server = inl socket /\
  Open net socket = None.

(** * Properties *)

(** ** Proof tools *)

Ltac unfold_prims :=
  unfold atomic_AddUint32_opened in *;
  unfold bind, ret, panic, block, out_of_fuel, get_pool, set_clients,
    set_opened, emit, alloc, deref, store in *.

Ltac state_simpl :=
  cbn [pool heap log clients opened maxIdle maxOpen servers connectTimeout
       readTimeout clientFactory with_clients with_opened with_heap with_log
       fst snd cap buf pc_Client unusable] in *.

Ltac break_state s :=
  let p := fresh "p" in
  let hp := fresh "hp" in
  let lg := fresh "lg" in
  destruct s as [p hp lg]; destruct p; state_simpl.

Lemma wrap32_add_max (o : Z) : wrap32 (o + uint32_max) = wrap32 (o - 1).
Proof.
  unfold wrap32, uint32_mod, uint32_max.
  replace (o + 4294967295) with (o - 1 + 1 * 2 ^ 32) by lia.
  apply Z_mod_plus_full.
Qed.

Lemma wrap32_small (o : Z) : 0 <= o < 2 ^ 32 -> wrap32 o = o.
Proof. intros H. unfold wrap32, uint32_mod. apply Z.mod_small. exact H. Qed.

Lemma closeClient_nil (s : State) : closeClient None s = (Ret None, s).
Proof. reflexivity. Qed.

Lemma closeClient_some (c : ClientObj) (s : State) :
  closeClient (Some c) s =
    match Transport c with
    | FieldMissing =>
        (Ret (Some ErrClientMissingTransportField), teardown_started c s)
    | FieldNil =>
        (Ret (Some ErrClientNilTransportField), teardown_started c s)
    | FieldInvalid => (Panic, teardown_started c s)
    | FieldTransport t =>
        (Ret (tr_Close t),
         with_log (log s ++ [EvFieldByName c; EvTransportClose t])
           (teardown_started c s))
    end.
Proof.
  unfold closeClient, teardown_started. unfold_prims.
  break_state s.
  destruct (maxOpen0 =? 0) eqn:E; state_simpl;
    rewrite ?wrap32_add_max;
    destruct (Transport c); state_simpl; unfold with_log; state_simpl;
    rewrite <- ?app_assoc; reflexivity.
Qed.

Lemma wrap32_pred (o : Z) : 0 < o < 2 ^ 32 -> wrap32 (o - 1) = o - 1.
Proof. intros H. apply wrap32_small. lia. Qed.

Lemma wrap32_succ (o m : Z) : 0 <= o < m -> m < 2 ^ 32 -> wrap32 (o + 1) = o + 1.
Proof. intros H1 H2. apply wrap32_small. lia. Qed.

(** C8: tearing down nil does nothing and reports no error; tearing down a
    client decrements [opened] modulo 2^32 when [maxOpen] is not 0 (and leaves
    it alone otherwise), looks the [Transport] field up, and returns
    [ErrClientMissingTransportField] when there is no such field,
    [ErrClientNilTransportField] when it is nil, and otherwise closes the
    transport and returns what its [Close] returns ([FieldInvalid] panics).
    The idle buffer, the handles and the configuration are not touched.  On
    a counter in 1..2^32-1 the decrement is exact. *)
Theorem closeClient_teardown (s : State) :
  closeClient None s = (Ret None, s) /\
  (forall c : ClientObj,
     let s1 := teardown_started c s in
     opened (pool s1) =
       (if maxOpen (pool s) =? 0 then opened (pool s)
        else wrap32 (opened (pool s) - 1)) /\
     log s1 = log s ++ [EvFieldByName c] /\
     same_frame s s1 /\
     match Transport c with
     | FieldMissing =>
         closeClient (Some c) s = (Ret (Some ErrClientMissingTransportField), s1)
     | FieldNil =>
         closeClient (Some c) s = (Ret (Some ErrClientNilTransportField), s1)
     | FieldInvalid => closeClient (Some c) s = (Panic, s1)
     | FieldTransport t =>
         closeClient (Some c) s =
           (Ret (tr_Close t), with_log (log s1 ++ [EvTransportClose t]) s1)
     end) /\
  (0 < opened (pool s) < 2 ^ 32 ->
   wrap32 (opened (pool s) - 1) = opened (pool s) - 1).
Proof.
  split; [reflexivity | split; [| apply wrap32_pred]].
  intros c s1. split; [reflexivity | split; [reflexivity |]].
  split; [repeat split |].
  rewrite closeClient_some. subst s1.
  destruct (Transport c); try reflexivity.
  unfold teardown_started, with_log. state_simpl.
  rewrite <- app_assoc. reflexivity.
Qed.

Lemma closeClient_teardown_witness :
  closeClient (Some (Sample.client_of 0)) (with_opened 1 (init Sample.pool_1_1)) =
    (Ret None,
     with_log [EvFieldByName (Sample.client_of 0);
               EvTransportClose (Sample.transport_of 0)]
       (with_opened 0 (init Sample.pool_1_1))) /\
  wrap32 (1 - 1) = 1 - 1.
Proof.
  destruct (closeClient_teardown (with_opened 1 (init Sample.pool_1_1)))
    as (_ & Hc & Hw).
  split.
  - destruct (Hc (Sample.client_of 0)) as (_ & _ & _ & Ht). exact Ht.
  - apply Hw. simpl. lia.
Defined.

(** ** Acquiring *)

Lemma getFromPool_closed (s : State) :
  clients (pool s) = None ->
  getFromPool s = (Ret (None, Some ErrPoolClosed), s).
Proof. intros H. unfold getFromPool. unfold_prims. rewrite H. reflexivity. Qed.

Lemma getFromPool_empty (s : State) (ch : chan) :
  clients (pool s) = Some ch -> buf ch = [] ->
  getFromPool s = (Ret (None, Some errNoPooledClient), s).
Proof.
  intros H E. unfold getFromPool, try_recv. unfold_prims.
  rewrite H, E. reflexivity.
Qed.

Lemma getFromPool_pop (s : State) (ch : chan) (c : Client) (rest : list Client) :
  clients (pool s) = Some ch -> buf ch = c :: rest ->
  getFromPool s =
    (Ret (c, None), with_clients (Some {| cap := cap ch; buf := rest |}) s).
Proof.
  intros H E. unfold getFromPool, try_recv. unfold_prims.
  rewrite H, E. reflexivity.
Qed.

Lemma openClient_ceiling (net : Net) (s : State) :
  maxOpen (pool s) <> 0 -> maxOpen (pool s) <= opened (pool s) ->
  openClient net s = (Ret (None, Some ErrPoolMaxOpenReached), s).
Proof.
  intros H0 Hle. unfold openClient. unfold_prims.
  apply Z.eqb_neq in H0. apply Z.leb_le in Hle.
  rewrite H0, Hle. reflexivity.
Qed.

(** [Get] when the idle buffer of an open pool is empty: the result of
    [openClient], wrapped in a fresh handle when there is no error. *)
Lemma Get_empty (net : Net) (s : State) (ch : chan) :
  clients (pool s) = Some ch -> buf ch = [] ->
  Get net s =
    match openClient net s with
    | (Ret (_, Some e), s') => (Ret (None, Some e), s')
    | (Ret (rawCli, None), s') =>
        (Ret (Some (length (heap s')), None),
         with_heap (heap s' ++ [{| pc_Client := rawCli; unusable := false |}]) s')
    | (Panic, s') => (Panic, s')
    | (Blocked, s') => (Blocked, s')
    | (OutOfFuel, s') => (OutOfFuel, s')
    end.
Proof.
  intros H E. unfold Get. unfold bind at 1.
  rewrite (getFromPool_empty s ch H E).
  destruct (decide (Some errNoPooledClient = Some ErrPoolClosed)) as [D | _];
    [discriminate D |].
  unfold bind at 1.
  destruct (openClient net s) as [[[rawCli [e |]] | | |] s']; reflexivity.
Qed.

Lemma same_frame_refl (s : State) : same_frame s s.
Proof. repeat split. Qed.

Lemma same_frame_trans (s1 s2 s3 : State) :
  same_frame s1 s2 -> same_frame s2 s3 -> same_frame s1 s3.
Proof.
  unfold same_frame. intros (A1 & A2 & A3 & A4 & A5 & A6) (B1 & B2 & B3 & B4 & B5 & B6).
  repeat split; congruence.
Qed.

Lemma closeClient_frame (cli : Client) (s : State) :
  same_frame s (snd (closeClient cli s)).
Proof.
  destruct cli as [c |]; [| apply same_frame_refl].
  rewrite closeClient_some.
  destruct (Transport c); repeat split.
Qed.

Lemma drain_frame (fuel : nat) :
  forall (cs : option chan) (err : option error) (s : State),
    same_frame s (snd (drain fuel cs err s)).
Proof.
  induction fuel as [| fuel IH]; intros cs err s; [apply same_frame_refl |].
  simpl. destruct cs as [ch |]; [| apply same_frame_refl].
  destruct (try_recv ch) as [[rawCli ch'] |]; [| apply same_frame_refl].
  unfold bind.
  pose proof (closeClient_frame rawCli s) as F.
  destruct (closeClient rawCli s) as [[curErr | | |] s1]; try exact F.
  eapply same_frame_trans; [exact F | apply IH].
Qed.

Lemma Close_closes (fuel : nat) (s : State) :
  clients (pool (snd (Close fuel s))) = None.
Proof.
  unfold Close. unfold_prims.
  destruct (drain_frame fuel (clients (pool s)) None (with_clients None s))
    as [H _].
  exact H.
Qed.

(** C4: [Get] on a pool that was shut down fails with [ErrPoolClosed]; on an
    open pool with no idle client, a ceiling [maxOpen <> 0] and
    [opened >= maxOpen], it fails with [ErrPoolMaxOpenReached] and leaves the
    whole state, the log of collaborator calls included, as it was: no socket
    is created or opened. *)
Theorem Get_fails_fast (net : Net) (s : State) :
  (clients (pool s) = None ->
   Get net s = (Ret (None, Some ErrPoolClosed), s)) /\
  (forall fuel,
     let s' := snd (Close fuel s) in
     Get net s' = (Ret (None, Some ErrPoolClosed), s')) /\
  (forall ch,
     clients (pool s) = Some ch -> buf ch = [] ->
     maxOpen (pool s) <> 0 -> maxOpen (pool s) <= opened (pool s) ->
     Get net s = (Ret (None, Some ErrPoolMaxOpenReached), s)).
Proof.
  assert (Hclosed : forall t, clients (pool t) = None ->
                              Get net t = (Ret (None, Some ErrPoolClosed), t)).
  { intros t H. unfold Get. unfold bind at 1.
    rewrite (getFromPool_closed t H).
    destruct (decide (Some ErrPoolClosed = Some ErrPoolClosed)) as [_ | N];
      [reflexivity | congruence]. }
  split; [apply Hclosed | split].
  - intros fuel s'. apply Hclosed. apply Close_closes.
  - intros ch H E H0 Hle.
    rewrite (Get_empty net s ch H E), (openClient_ceiling net s H0 Hle).
    reflexivity.
Qed.

Lemma Get_fails_fast_witness :
  Get (Sample.net_ok 0) (with_clients None (init Sample.pool_1_1)) =
    (Ret (None, Some ErrPoolClosed), with_clients None (init Sample.pool_1_1)) /\
  Get (Sample.net_ok 0) (with_opened 1 (init Sample.pool_1_1)) =
    (Ret (None, Some ErrPoolMaxOpenReached), with_opened 1 (init Sample.pool_1_1)).
Proof.
  split.
  - apply (Get_fails_fast (Sample.net_ok 0)
             (with_clients None (init Sample.pool_1_1))).
    reflexivity.
  - apply (Get_fails_fast (Sample.net_ok 0)
             (with_opened 1 (init Sample.pool_1_1)))
      with (ch := {| cap := 1; buf := [] |}).
    + reflexivity.
    + reflexivity.
    + simpl. lia.
    + simpl. lia.
Defined.

Lemma pick_server_elem (r : Z) (l : list string) (server : string) :
  pick_server r l = Some server -> server ∈ l.
Proof.
  unfold pick_server.
  destruct (Z.of_nat (length l) =? 0); [discriminate |].
  destruct (Z.rem r (Z.of_nat (length l)) <? 0); [discriminate |].
  intros H. apply list_elem_of_lookup. eauto.
Qed.

(** For the values [rand.Int()] can return, picking a server is taking the
    entry at [r mod len(servers)]. *)
Lemma pick_server_mod (r : Z) (l : list string) :
  0 <= r -> l <> [] ->
  pick_server r l = l !! Z.to_nat (r mod Z.of_nat (length l)) /\
  is_Some (pick_server r l).
Proof.
  intros Hr Hl. unfold pick_server.
  assert (Hn : 0 < Z.of_nat (length l)) by (destruct l; [congruence | simpl; lia]).
  destruct (Z.of_nat (length l) =? 0) eqn:E; [apply Z.eqb_eq in E; lia |].
  rewrite Z.rem_mod_nonneg by lia.
  pose proof (Z.mod_pos_bound r (Z.of_nat (length l)) Hn) as B.
  destruct (r mod Z.of_nat (length l) <? 0) eqn:E2; [apply Z.ltb_lt in E2; lia |].
  split; [reflexivity |].
  apply lookup_lt_is_Some. lia.
Qed.

(** Every configured server is picked for some value of [rand.Int()]. *)
Lemma pick_server_onto (l : list string) (i : nat) (server : string) :
  l !! i = Some server -> pick_server (Z.of_nat i) l = Some server.
Proof.
  intros H. pose proof (lookup_lt_Some _ _ _ H) as Hi.
  assert (Hl : l <> []) by (intros ->; simpl in Hi; lia).
  destruct (pick_server_mod (Z.of_nat i) l) as [-> _]; [lia | exact Hl |].
  rewrite Z.mod_small by lia. rewrite Nat2Z.id. exact H.
Qed.

(** The choice is balanced: in every run of [len(servers)] consecutive
    values of [rand.Int()], each server is taken once. *)
Lemma pick_server_balanced (l : list string) (q : Z) (i : nat) :
  0 <= q -> (i < length l)%nat ->
  pick_server (q * Z.of_nat (length l) + Z.of_nat i) l = l !! i.
Proof.
  intros Hq Hi.
  assert (Hl : l <> []) by (intros ->; simpl in Hi; lia).
  destruct (pick_server_mod (q * Z.of_nat (length l) + Z.of_nat i) l)
    as [-> _]; [nia | exact Hl |].
  rewrite Z.add_comm, Z_mod_plus_full, Z.mod_small by lia.
  rewrite Nat2Z.id. reflexivity.
Qed.

(** C10: [Get] returns a handle exactly when it returns no error; it never
    waits, and it panics only when no server can be picked (an empty server
    list). *)
Theorem Get_exclusive (net : Net) (s : State) :
  match Get net s with
  | (Ret (cli, err), _) => cli <> None <-> err = None
  | (Panic, _) => pick_server (rand_Int net) (servers (pool s)) = None
  | (Blocked, _) => False
  | (OutOfFuel, _) => False
  end.
Proof.
  unfold Get. unfold bind at 1.
  destruct (clients (pool s)) as [ch |] eqn:Hc.
  - destruct (buf ch) as [| c rest] eqn:Hb.
    + rewrite (getFromPool_empty s ch Hc Hb).
      destruct (decide (Some errNoPooledClient = Some ErrPoolClosed)) as [D | _];
        [discriminate D |].
      unfold bind at 1. unfold openClient. unfold_prims.
      destruct (negb (maxOpen (pool s) =? 0) && (maxOpen (pool s) <=? opened (pool s)));
        [split; [intros N; congruence | discriminate] |].
      destruct (pick_server (rand_Int net) (servers (pool s))) as [server |];
        [| reflexivity].
      state_simpl.
      destruct (NewTSocket net server) as [socket | e];
        [| split; [intros N; congruence | discriminate]].
      destruct (Open net socket) as [e |];
        [split; [intros N; congruence | discriminate] |].
      destruct (maxOpen (pool s) =? 0); state_simpl;
        (split; [reflexivity | discriminate]).
    + rewrite (getFromPool_pop s ch c rest Hc Hb).
      destruct (decide (None = Some ErrPoolClosed)) as [D | _];
        [discriminate D |].
      destruct c as [c |].
      * unfold_prims. split; [reflexivity | discriminate].
      * unfold bind at 1. unfold openClient. unfold_prims. state_simpl.
        destruct (negb (maxOpen (pool s) =? 0) && (maxOpen (pool s) <=? opened (pool s)));
          [split; [intros N; congruence | discriminate] |].
        destruct (pick_server (rand_Int net) (servers (pool s))) as [server |];
          [| reflexivity].
        state_simpl.
        destruct (NewTSocket net server) as [socket | e];
          [| split; [intros N; congruence | discriminate]].
        destruct (Open net socket) as [e |];
          [split; [intros N; congruence | discriminate] |].
        destruct (maxOpen (pool s) =? 0); state_simpl;
          (split; [reflexivity | discriminate]).
  - rewrite (getFromPool_closed s Hc).
    destruct (decide (Some ErrPoolClosed = Some ErrPoolClosed)) as [_ | N];
      [| congruence].
    split; [intros N; congruence | discriminate].
Qed.

(** C7: below the ceiling, [openClient] takes the server at index
    [rand.Int() mod len(servers)], creates the socket, sets the connect
    timeout and opens it; an error of [NewTSocket] or of [Open] is returned as
    it is, after that single attempt; on success the socket timeout is set to
    [readTimeout], [opened] is incremented when [maxOpen <> 0] (exactly, as
    the counter is below [maxOpen]), and the factory is called once, its
    client being the one returned.  [Get] on an empty idle buffer hands that
    client out in a fresh handle. *)
Theorem openClient_steps (net : Net) (s : State)
    (Hrand : 0 <= rand_Int net)
    (Hservers : servers (pool s) <> [])
    (Hceil : maxOpen (pool s) = 0 \/ opened (pool s) < maxOpen (pool s)) :
  exists server : string,
    servers (pool s)
      !! Z.to_nat (rand_Int net mod Z.of_nat (length (servers (pool s))))
      = Some server /\
    match NewTSocket net server with
    | inr e =>
        openClient net s =
          (Ret (None, Some e), with_log (log s ++ [EvNewTSocket server]) s)
    | inl socket =>
        match Open net socket with
        | Some e =>
            openClient net s =
              (Ret (None, Some e),
               with_log (log s ++ [EvNewTSocket server;
                                   EvSetTimeout socket (connectTimeout (pool s));
                                   EvOpen socket]) s)
        | None =>
            let s' :=
              with_log (log s ++ [EvNewTSocket server;
                                  EvSetTimeout socket (connectTimeout (pool s));
                                  EvOpen socket;
                                  EvSetTimeout socket (readTimeout (pool s));
                                  EvFactory socket])
                (with_opened
                   (if maxOpen (pool s) =? 0 then opened (pool s)
                    else wrap32 (opened (pool s) + 1)) s) in
            openClient net s = (Ret (clientFactory (pool s) socket, None), s') /\
            (0 <= opened (pool s) -> maxOpen (pool s) < 2 ^ 32 ->
             maxOpen (pool s) <> 0 ->
             opened (pool s') = opened (pool s) + 1) /\
            (forall ch, clients (pool s) = Some ch -> buf ch = [] ->
               Get net s =
                 (Ret (Some (length (heap s)), None),
                  with_heap
                    (heap s ++ [{| pc_Client := clientFactory (pool s) socket;
                                   unusable := false |}]) s'))
        end
    end.
Proof.
  destruct (pick_server_mod (rand_Int net) (servers (pool s)) Hrand Hservers)
    as [Hpick [server Hsome]].
  exists server. split; [congruence |].
  assert (Hgo : negb (maxOpen (pool s) =? 0) && (maxOpen (pool s) <=? opened (pool s))
                = false).
  { destruct Hceil as [H0 | Hlt].
    - rewrite H0. reflexivity.
    - apply andb_false_iff. right. apply Z.leb_gt. exact Hlt. }
  assert (Hopen : forall socket, NewTSocket net server = inl socket ->
            Open net socket = None ->
            openClient net s =
              (Ret (clientFactory (pool s) socket, None),
               with_log (log s ++ [EvNewTSocket server;
                                   EvSetTimeout socket (connectTimeout (pool s));
                                   EvOpen socket;
                                   EvSetTimeout socket (readTimeout (pool s));
                                   EvFactory socket])
                 (with_opened
                    (if maxOpen (pool s) =? 0 then opened (pool s)
                     else wrap32 (opened (pool s) + 1)) s))).
  { intros socket Hs Ho. unfold openClient. unfold_prims.
    rewrite Hgo, Hsome. state_simpl. rewrite Hs, Ho.
    destruct (maxOpen (pool s) =? 0); state_simpl;
      unfold with_log, with_opened; state_simpl;
      rewrite <- !app_assoc; try reflexivity.
    destruct s as [[] ? ?]. reflexivity. }
  destruct (NewTSocket net server) as [socket | e] eqn:Hs.
  - destruct (Open net socket) as [e |] eqn:Ho.
    + unfold openClient. unfold_prims.
      rewrite Hgo, Hsome. state_simpl. rewrite Hs, Ho.
      unfold with_log. state_simpl. rewrite <- !app_assoc. reflexivity.
    + cbv zeta. split; [apply Hopen; [reflexivity | exact Ho] | split].
      * intros H0 Hmax Hn. state_simpl.
        apply Z.eqb_neq in Hn. rewrite Hn.
        destruct Hceil as [Hz | Hlt]; [apply Z.eqb_neq in Hn; lia |].
        apply (wrap32_succ _ (maxOpen (pool s))); lia.
      * intros ch Hc Hb. rewrite (Get_empty net s ch Hc Hb).
        rewrite (Hopen socket eq_refl Ho). reflexivity.
  - unfold openClient. unfold_prims.
    rewrite Hgo, Hsome. state_simpl. rewrite Hs. reflexivity.
Qed.

Lemma openClient_steps_witness :
  exists server : string,
    ["10.0.0.1:9090"%string] !! Z.to_nat (7 mod 1) = Some server /\
    openClient (Sample.net_ok 0) (init Sample.pool_1_1) =
      (Ret (Some (Sample.client_of 0), None),
       with_log [EvNewTSocket server;
                 EvSetTimeout {| sock_addr := server; sock_id := 0 |} 100;
                 EvOpen {| sock_addr := server; sock_id := 0 |};
                 EvSetTimeout {| sock_addr := server; sock_id := 0 |} 500;
                 EvFactory {| sock_addr := server; sock_id := 0 |}]
         (with_opened 1 (init Sample.pool_1_1))).
Proof.
  destruct (openClient_steps (Sample.net_ok 0) (init Sample.pool_1_1))
    as (server & Hs & H).
  - simpl. lia.
  - discriminate.
  - right. simpl. lia.
  - exists server. split; [exact Hs |].
    simpl in H. destruct H as (H & _ & _). exact H.
Defined.

(** ** Releasing *)

Lemma closePooledClient_dangling (h : nat) (s : State) :
  heap s !! h = None -> closePooledClient h s = (Panic, s).
Proof. intros H. unfold closePooledClient. unfold_prims. rewrite H. reflexivity. Qed.

Lemma closePooledClient_unusable (h : nat) (cli : pooledClient) (s : State) :
  heap s !! h = Some cli -> unusable cli = true ->
  closePooledClient h s = closeClient (pc_Client cli) s.
Proof.
  intros H U. unfold closePooledClient. unfold_prims.
  rewrite H, U. reflexivity.
Qed.

Lemma closePooledClient_returned (h : nat) (cli : pooledClient) (s : State) (ch : chan) :
  heap s !! h = Some cli -> unusable cli = false ->
  clients (pool s) = Some ch -> len ch < cap ch ->
  closePooledClient h s =
    (Ret None,
     with_heap (<[h := {| pc_Client := None; unusable := false |}]> (heap s))
       (with_clients
          (Some {| cap := cap ch; buf := buf ch ++ [pc_Client cli] |}) s)).
Proof.
  intros H U Hc Hlt. unfold closePooledClient, try_send. unfold_prims.
  rewrite H, U, Hc. apply Z.ltb_lt in Hlt. rewrite Hlt. state_simpl.
  rewrite list_lookup_insert_eq by (eapply lookup_lt_Some; exact H).
  reflexivity.
Qed.

Lemma closePooledClient_fallback (h : nat) (cli : pooledClient) (s : State) :
  heap s !! h = Some cli -> unusable cli = false ->
  (clients (pool s) = None \/
   exists ch, clients (pool s) = Some ch /\ cap ch <= len ch) ->
  closePooledClient h s = closeClient (pc_Client cli) s.
Proof.
  intros H U Hfull. unfold closePooledClient, try_send. unfold_prims.
  rewrite H, U.
  destruct Hfull as [Hc | (ch & Hc & Hle)]; rewrite Hc.
  - rewrite H. reflexivity.
  - apply Z.ltb_ge in Hle. rewrite Hle, H. reflexivity.
Qed.

Lemma release_shape_frame (h : nat) (s s' : State) :
  same_frame s s' -> release_shape h s s'.
Proof.
  intros (F1 & F2 & F3 & _ & _ & F6).
  split; [exact F3 | split; [exact F6 | left; split; assumption]].
Qed.

Lemma closePooledClient_shape (h : nat) (s : State) :
  release_shape h s (snd (closePooledClient h s)).
Proof.
  destruct (heap s !! h) as [cli |] eqn:H.
  2:{ rewrite (closePooledClient_dangling h s H).
      apply release_shape_frame, same_frame_refl. }
  destruct (unusable cli) eqn:U.
  { rewrite (closePooledClient_unusable h cli s H U).
    apply release_shape_frame, closeClient_frame. }
  destruct (clients (pool s)) as [ch |] eqn:Hc.
  - destruct (Z.ltb_spec (len ch) (cap ch)) as [Hlt | Hge].
    + rewrite (closePooledClient_returned h cli s ch H U Hc Hlt).
      split; [reflexivity | split; [reflexivity |]].
      right. exists cli, ch. repeat split; assumption.
    + rewrite (closePooledClient_fallback h cli s H U).
      * apply release_shape_frame, closeClient_frame.
      * right. exists ch. split; [exact Hc | exact Hge].
  - rewrite (closePooledClient_fallback h cli s H U).
    + apply release_shape_frame, closeClient_frame.
    + left. exact Hc.
Qed.

Lemma openClient_shape (net : Net) (s : State) :
  same_frame s (snd (openClient net s)) /\
  forall rawCli s1,
    openClient net s = (Ret (rawCli, None), s1) ->
    exists server socket,
      NewTSocket net server = inl socket /\
      rawCli = clientFactory (pool s) socket.
Proof.
  unfold openClient. unfold_prims.
  destruct (negb (maxOpen (pool s) =? 0) && (maxOpen (pool s) <=? opened (pool s)));
    [split; [apply same_frame_refl | discriminate] |].
  destruct (pick_server (rand_Int net) (servers (pool s))) as [server |];
    [| split; [apply same_frame_refl | discriminate]].
  state_simpl.
  destruct (NewTSocket net server) as [socket | e] eqn:Hs;
    [| split; [repeat split | discriminate]].
  destruct (Open net socket) as [e |];
    [split; [repeat split | discriminate] |].
  destruct (maxOpen (pool s) =? 0); state_simpl.
  - split; [repeat split |].
    intros rawCli s1 [= <- _]. exists server, socket.
    split; [exact Hs | reflexivity].
  - split; [repeat split |].
    intros rawCli s1 [= <- _]. exists server, socket.
    split; [exact Hs | reflexivity].
Qed.

(** [Get] after [getFromPool] came back without a client. *)
Lemma Get_via_open (net : Net) (s s0 : State) (e : option error) :
  getFromPool s = (Ret (None, e), s0) -> e <> Some ErrPoolClosed ->
  Get net s =
    match openClient net s0 with
    | (Ret (_, Some e'), s') => (Ret (None, Some e'), s')
    | (Ret (rawCli, None), s') =>
        (Ret (Some (length (heap s')), None),
         with_heap (heap s' ++ [{| pc_Client := rawCli; unusable := false |}]) s')
    | (Panic, s') => (Panic, s')
    | (Blocked, s') => (Blocked, s')
    | (OutOfFuel, s') => (OutOfFuel, s')
    end.
Proof.
  intros H Hne. unfold Get. unfold bind at 1. rewrite H.
  destruct (decide (e = Some ErrPoolClosed)) as [D | _]; [contradiction |].
  unfold bind at 1.
  destruct (openClient net s0) as [[[rawCli [e' |]] | | |] s']; reflexivity.
Qed.

Lemma Get_shape (net : Net) (s : State) :
  acquire_shape net s (snd (Get net s)).
Proof.
  assert (Hopen : forall s0 e,
            getFromPool s = (Ret (None, e), s0) -> e <> Some ErrPoolClosed ->
            maxIdle (pool s0) = maxIdle (pool s) ->
            clientFactory (pool s0) = clientFactory (pool s) ->
            heap s0 = heap s ->
            (clients (pool s0) = clients (pool s) \/
             exists ch c rest,
               clients (pool s) = Some ch /\ buf ch = c :: rest /\
               clients (pool s0) = Some {| cap := cap ch; buf := rest |}) ->
            acquire_shape net s (snd (Get net s))).
  { intros s0 e H Hne Hi Hf Hh Hcl.
    rewrite (Get_via_open net s s0 e H Hne).
    destruct (openClient_shape net s0) as [(F1 & F2 & F3 & _ & _ & F6) Hok].
    destruct (openClient net s0) as [[[rawCli [e' |]] | | |] s'] eqn:E;
      unfold acquire_shape; state_simpl;
      (split; [congruence | split; [congruence | split; [rewrite F1; exact Hcl |]]]);
      try (left; congruence).
    right. exists rawCli. split; [congruence |].
    right. destruct (Hok rawCli s' eq_refl) as (server & socket & Hs & ->).
    exists server, socket. split; [exact Hs | congruence]. }
  destruct (clients (pool s)) as [ch |] eqn:Hc.
  - destruct (buf ch) as [| c rest] eqn:Hb.
    + apply (Hopen s (Some errNoPooledClient));
        [apply (getFromPool_empty s ch Hc Hb) | discriminate | reflexivity ..
        | left; exact Hc].
    + destruct c as [c |].
      * unfold Get. unfold bind at 1.
        rewrite (getFromPool_pop s ch (Some c) rest Hc Hb).
        destruct (decide (None = Some ErrPoolClosed)) as [D | _];
          [discriminate D |].
        unfold_prims. state_simpl.
        split; [reflexivity | split; [reflexivity | split]].
        -- right. exists ch, (Some c), rest. repeat split; assumption.
        -- right. exists (Some c). split; [reflexivity |].
           left. unfold idle_buf. rewrite Hc, Hb. apply list_elem_of_here.
      * apply (Hopen (with_clients (Some {| cap := cap ch; buf := rest |}) s) None);
          [apply (getFromPool_pop s ch None rest Hc Hb) | discriminate
          | reflexivity .. |].
        right. exists ch, None, rest. repeat split; assumption.
  - unfold Get. unfold bind at 1. rewrite (getFromPool_closed s Hc).
    destruct (decide (Some ErrPoolClosed = Some ErrPoolClosed)) as [_ | N];
      [| congruence].
    unfold_prims. state_simpl.
    split; [reflexivity | split; [reflexivity | split; left; congruence]].
Qed.

(** ** Teardowns in the log *)

Lemma teardowns_app (c : ClientObj) (l l' : list event) :
  teardowns c (l ++ l') = (teardowns c l + teardowns c l')%nat.
Proof. unfold teardowns. rewrite filter_app, length_app. reflexivity. Qed.

Lemma teardowns_events (c : ClientObj) :
  teardowns c (teardown_events (Some c)) = 1%nat.
Proof.
  unfold teardowns, teardown_events.
  rewrite filter_cons_True by reflexivity.
  destruct (Transport c); reflexivity.
Qed.

Lemma closeClient_log (cli : Client) (s : State) :
  log (snd (closeClient cli s)) = log s ++ teardown_events cli.
Proof.
  destruct cli as [c |]; [| simpl; rewrite app_nil_r; reflexivity].
  rewrite closeClient_some. unfold teardown_events.
  destruct (Transport c); reflexivity.
Qed.

Lemma closeClient_torn_down (c : ClientObj) (s : State) :
  torn_down c s (snd (closeClient (Some c) s)) = true /\
  idle_buf (snd (closeClient (Some c) s)) = idle_buf s.
Proof.
  split.
  - unfold torn_down. apply bool_decide_eq_true.
    rewrite closeClient_log, teardowns_app, teardowns_events. lia.
  - unfold idle_buf.
    destruct (closeClient_frame (Some c) s) as [-> _]. reflexivity.
Qed.

(** ** The idle buffer stays within [maxIdle] *)

Lemma exec_idle_bounded (k : Z) (o : op) (s : State) :
  idle_bounded k s -> idle_bounded k (exec o s).
Proof.
  unfold idle_bounded. intros [Hk Hb].
  destruct o as [net | h | h | h | |]; cbn [exec].
  - destruct (Get_shape net s) as (Hi & _ & Hcl & _).
    split; [congruence |].
    destruct Hcl as [-> | (ch & c & rest & Hc & Hbuf & ->)]; [exact Hb |].
    rewrite Hc in Hb. destruct Hb as [Hcap Hlen]. cbn [cap].
    split; [exact Hcap |].
    unfold len in *. cbn [buf]. rewrite Hbuf in Hlen. simpl in Hlen. lia.
  - unfold RawClient. unfold_prims.
    destruct (heap s !! h); state_simpl; split; assumption.
  - unfold MarkUnusable. unfold_prims.
    destruct (heap s !! h); state_simpl; split; assumption.
  - unfold pooledClient_Close.
    destruct (closePooledClient_shape h s) as (Hi & _ & Hcl).
    split; [congruence |].
    destruct Hcl as [[-> _] | (cli & ch & _ & _ & Hc & Hlt & -> & _)];
      [exact Hb |].
    rewrite Hc in Hb. destruct Hb as [Hcap Hlen]. cbn [cap].
    split; [exact Hcap |].
    unfold len in *. cbn [buf]. rewrite length_app. simpl. lia.
  - rewrite Close_closes. split; [| exact I].
    unfold Close. unfold_prims.
    destruct (drain_frame (S (length (idle_buf s))) (clients (pool s)) None
                (with_clients None s)) as (_ & _ & Hi & _).
    rewrite Hi. exact Hk.
  - split; assumption.
Qed.

Lemma run_idle_bounded (k : Z) (ops : list op) :
  forall s, idle_bounded k s -> idle_bounded k (run ops s).
Proof.
  induction ops as [| o ops IH]; intros s H; [exact H |].
  apply IH, exec_idle_bounded, H.
Qed.

(** C2: whatever calls are made on a pool built with [maxIdle = k], [Size()]
    stays between 0 and [k]; releasing a usable handle when [Size()] is [k]
    runs the teardown of its client and leaves the idle buffer as it was. *)
Theorem Size_bounded (k mo : Z) (srv : list string) (ct rt : Z)
    (factory : TSocket -> Client) (ops : list op) (Hk : 0 <= k) :
  let s := run ops (init (NewChannelClientPool k mo srv ct rt factory)) in
  (exists n, Size s = (Ret n, s) /\ 0 <= n <= k) /\
  (forall h c,
     heap s !! h = Some {| pc_Client := Some c; unusable := false |} ->
     fst (Size s) = Ret k ->
     let s' := snd (closePooledClient h s) in
     closePooledClient h s = closeClient (Some c) s /\
     idle_buf s' = idle_buf s /\
     torn_down c s s' = true).
Proof.
  intros s.
  assert (Hinv : idle_bounded k s).
  { apply run_idle_bounded. split; [reflexivity |]. cbn. unfold len. cbn. lia. }
  destruct Hinv as [Hi Hb].
  split.
  - unfold Size. unfold_prims.
    destruct (clients (pool s)) as [ch |].
    + exists (len ch). split; [reflexivity |]. unfold len in *. lia.
    + exists 0. split; [reflexivity | lia].
  - intros h c Hh Hfull s'.
    assert (E : closePooledClient h s = closeClient (Some c) s).
    { apply (closePooledClient_fallback h _ s Hh); [reflexivity |].
      unfold Size in Hfull. unfold_prims. cbn [fst] in Hfull.
      destruct (clients (pool s)) as [ch |] eqn:Hc; [right | left; reflexivity].
      exists ch. split; [reflexivity |].
      destruct Hb as [Hcap _]. injection Hfull as Hl. lia. }
    subst s'. rewrite E.
    destruct (closeClient_torn_down c s) as [Ht Hidle].
    split; [reflexivity | split; assumption].
Qed.

Lemma Size_bounded_witness :
  let s := run [OpGet (Sample.net_ok 0); OpGet (Sample.net_ok 1);
                OpHandleClose 0%nat] (init Sample.pool_1_0) in
  (exists n, Size s = (Ret n, s) /\ 0 <= n <= 1) /\
  closePooledClient 1%nat s = closeClient (Some (Sample.client_of 1)) s.
Proof.
  intros s.
  destruct (Size_bounded 1 0 ["10.0.0.1:9090"%string] 100 500 Sample.factory
              [OpGet (Sample.net_ok 0); OpGet (Sample.net_ok 1);
               OpHandleClose 0%nat]) as [Hsize Hfull].
  - lia.
  - split; [exact Hsize |].
    destruct (Hfull 1%nat (Sample.client_of 1)) as (E & _ & _);
      [reflexivity | reflexivity | exact E].
Defined.

(** ** Exactly one of return-to-idle and teardown *)

Lemma app_singleton_neq {A} (l : list A) (x : A) : l <> l ++ [x].
Proof.
  intros E. apply (f_equal length) in E. rewrite length_app in E.
  simpl in E. lia.
Qed.

Lemma factory_preserved (o : op) (s : State) :
  clientFactory (pool (exec o s)) = clientFactory (pool s).
Proof.
  destruct o as [net | h | h | h | |]; cbn [exec].
  - apply (Get_shape net s).
  - unfold RawClient. unfold_prims. destruct (heap s !! h); reflexivity.
  - unfold MarkUnusable. unfold_prims. destruct (heap s !! h); reflexivity.
  - apply (closePooledClient_shape h s).
  - unfold Close. unfold_prims.
    apply (drain_frame (S (length (idle_buf s))) (clients (pool s)) None
             (with_clients None s)).
  - reflexivity.
Qed.

Lemma exec_retired (c : ClientObj) (o : op) (s : State) :
  retired c s -> fresh_for c (clientFactory (pool s)) o ->
  retired c (exec o s).
Proof.
  intros [Hidle Hheap] Hfresh.
  destruct o as [net | h | h | h | |]; cbn [exec].
  - destruct (Get_shape net s) as (_ & _ & Hcl & Hhp). split.
    + unfold idle_buf in *.
      destruct Hcl as [-> | (ch & c0 & rest & Hc & Hbuf & ->)]; [exact Hidle |].
      rewrite Hc, Hbuf in Hidle. cbn [buf].
      intros Hin. apply Hidle. apply list_elem_of_further. exact Hin.
    + intros h cli Hl Hcli.
      destruct Hhp as [E | (rawCli & E & Horigin)]; rewrite E in Hl; [eauto |].
      apply lookup_app_Some in Hl as [Hl | [_ Hl]]; [eauto |].
      apply list_lookup_singleton_Some in Hl as [_ <-].
      cbn [pc_Client] in Hcli. subst rawCli. exfalso.
      destruct Horigin as [Hin | (server & socket & Hs & Hf)];
        [exact (Hidle Hin) |].
      exact (Hfresh server socket Hs (eq_sym Hf)).
  - unfold RawClient. unfold_prims.
    destruct (heap s !! h); split; assumption.
  - unfold MarkUnusable. unfold_prims.
    destruct (heap s !! h) as [cli0 |] eqn:E; [| split; assumption].
    split; [exact Hidle |]. state_simpl.
    intros h' cli Hl Hcli.
    apply list_lookup_insert_Some in Hl as [(_ & <- & _) | [_ Hl]];
      [reflexivity | eauto].
  - unfold pooledClient_Close.
    destruct (closePooledClient_shape h s) as (_ & _ & Hcl).
    destruct Hcl as [[Hc Hhp] | (cli0 & ch & Hl0 & U & Hc & _ & Hc' & Hhp)].
    + split; [unfold idle_buf in *; rewrite Hc; exact Hidle |].
      rewrite Hhp. exact Hheap.
    + split.
      * unfold idle_buf in *. rewrite Hc', Hc in *. cbn [buf].
        intros Hin. apply elem_of_app in Hin as [Hin | Hin]; [exact (Hidle Hin) |].
        apply list_elem_of_singleton in Hin.
        specialize (Hheap h cli0 Hl0 (eq_sym Hin)). congruence.
      * rewrite Hhp. intros h' cli Hl Hcli.
        apply list_lookup_insert_Some in Hl as [(_ & <- & _) | [_ Hl]];
          [discriminate Hcli | eauto].
  - split.
    + unfold idle_buf. rewrite Close_closes. apply not_elem_of_nil.
    + unfold Close. unfold_prims.
      destruct (drain_frame (S (length (idle_buf s))) (clients (pool s)) None
                  (with_clients None s)) as (_ & -> & _).
      exact Hheap.
  - split; assumption.
Qed.

Lemma run_retired (c : ClientObj) (ops : list op) :
  forall s,
    retired c s -> Forall (fresh_for c (clientFactory (pool s))) ops ->
    retired c (run ops s).
Proof.
  induction ops as [| o ops IH]; intros s H Hf; [exact H |].
  apply Forall_cons in Hf as [Ho Hops].
  apply IH; [apply exec_retired; assumption |].
  rewrite factory_preserved. exact Hops.
Qed.

(** C3: a release through a handle that holds a client either appends that
    client to the idle buffer or starts its teardown, never both and never
    neither.  For a handle marked unusable it is the teardown, the idle
    buffer is not touched, and if the client is out of the pool's reach at
    that point (not idle, no usable handle refers to it) no later sequence of
    calls brings it back into the idle buffer, as long as the factory does
    not hand the same client out again. *)
Theorem Close_one_of (s : State) (h : nat) (c : ClientObj) (u : bool)
    (Hh : heap s !! h = Some {| pc_Client := Some c; unusable := u |}) :
  let s' := snd (closePooledClient h s) in
  xorb (returned_to_idle c s s') (torn_down c s s') = true /\
  (u = true ->
   torn_down c s s' = true /\
   idle_buf s' = idle_buf s /\
   (retired c s ->
    forall ops,
      Forall (fresh_for c (clientFactory (pool s))) ops ->
      Some c ∉ idle_buf (run ops s'))).
Proof.
  intros s'.
  assert (Htear : closePooledClient h s = closeClient (Some c) s ->
            returned_to_idle c s s' = false /\ torn_down c s s' = true /\
            idle_buf s' = idle_buf s).
  { intros E. subst s'. rewrite E.
    destruct (closeClient_torn_down c s) as [Ht Hidle].
    split; [| split; assumption].
    unfold returned_to_idle. apply bool_decide_eq_false.
    rewrite Hidle. apply app_singleton_neq. }
  split.
  - destruct u.
    + destruct Htear as (-> & -> & _); [| reflexivity].
      apply (closePooledClient_unusable h _ s Hh). reflexivity.
    + destruct (clients (pool s)) as [ch |] eqn:Hc.
      * destruct (Z.ltb_spec (len ch) (cap ch)) as [Hlt | Hge].
        -- subst s'.
           rewrite (closePooledClient_returned h _ s ch Hh eq_refl Hc Hlt).
           unfold returned_to_idle, torn_down, idle_buf. state_simpl.
           rewrite Hc. cbn [buf].
           rewrite bool_decide_eq_true_2 by reflexivity.
           rewrite bool_decide_eq_false_2 by lia. reflexivity.
        -- destruct Htear as (-> & -> & _); [| reflexivity].
           apply (closePooledClient_fallback h _ s Hh); [reflexivity |].
           right. exists ch. split; [exact Hc | exact Hge].
      * destruct Htear as (-> & -> & _); [| reflexivity].
        apply (closePooledClient_fallback h _ s Hh); [reflexivity |].
        left. exact Hc.
  - intros ->.
    assert (E : closePooledClient h s = closeClient (Some c) s)
      by (apply (closePooledClient_unusable h _ s Hh); reflexivity).
    destruct (Htear E) as (_ & Ht & Hidle).
    split; [exact Ht | split; [exact Hidle |]].
    intros [Hout Hhandles] ops Hfresh.
    destruct (closeClient_frame (Some c) s) as (_ & Fh & _ & _ & _ & Ff).
    assert (Hret : retired c s').
    { subst s'. rewrite E. split; [rewrite <- E, Hidle; exact Hout |].
      rewrite Fh. exact Hhandles. }
    apply (run_retired c ops s' Hret).
    subst s'. rewrite E, Ff. exact Hfresh.
Qed.

Lemma Close_one_of_witness :
  let s := run [OpGet (Sample.net_ok 0); OpMarkUnusable 0%nat]
             (init Sample.pool_1_0) in
  let s' := snd (closePooledClient 0%nat s) in
  torn_down (Sample.client_of 0) s s' = true /\
  Some (Sample.client_of 0)
    ∉ idle_buf (run [OpGet (Sample.net_ok 1); OpHandleClose 1%nat;
                     OpHandleClose 0%nat] s').
Proof.
  intros s s'.
  destruct (Close_one_of s 0%nat (Sample.client_of 0) true eq_refl)
    as [_ Hu].
  destruct (Hu eq_refl) as (Ht & _ & Hnever).
  split; [exact Ht |].
  apply Hnever.
  - split.
    + apply not_elem_of_nil.
    + intros [| [| h]] cli Hl Hc; simpl in Hl; [| discriminate ..].
      injection Hl as <-. reflexivity.
  - repeat constructor.
    intros server socket [= <-]. discriminate.
Defined.

(** ** The handle after a release *)

(** The two ways a release through a handle holding [c] can go. *)
Lemma release_cases (s : State) (h : nat) (c : ClientObj) (u : bool) :
  heap s !! h = Some {| pc_Client := Some c; unusable := u |} ->
  (u = false /\
   exists ch,
     clients (pool s) = Some ch /\ len ch < cap ch /\
     closePooledClient h s =
       (Ret None,
        with_heap (<[h := {| pc_Client := None; unusable := false |}]> (heap s))
          (with_clients
             (Some {| cap := cap ch; buf := buf ch ++ [Some c] |}) s))) \/
  closePooledClient h s = closeClient (Some c) s.
Proof.
  intros Hh. destruct u.
  - right. apply (closePooledClient_unusable h _ s Hh). reflexivity.
  - destruct (clients (pool s)) as [ch |] eqn:Hc.
    + destruct (Z.ltb_spec (len ch) (cap ch)) as [Hlt | Hge].
      * left. split; [reflexivity |]. exists ch.
        split; [reflexivity | split; [exact Hlt |]].
        apply (closePooledClient_returned h _ s ch Hh eq_refl Hc Hlt).
      * right. apply (closePooledClient_fallback h _ s Hh); [reflexivity |].
        right. exists ch. split; [exact Hc | exact Hge].
    + right. apply (closePooledClient_fallback h _ s Hh); [reflexivity |].
      left. exact Hc.
Qed.

(** Releasing through a handle whose client reference is nil runs no
    teardown: at most it puts the nil into the idle buffer. *)
Lemma closePooledClient_cleared (h : nat) (u : bool) (s : State) :
  heap s !! h = Some {| pc_Client := None; unusable := u |} ->
  fst (closePooledClient h s) = Ret None /\
  log (snd (closePooledClient h s)) = log s /\
  opened (pool (snd (closePooledClient h s))) = opened (pool s).
Proof.
  intros Hh. destruct u.
  - rewrite (closePooledClient_unusable h _ s Hh eq_refl).
    repeat split.
  - destruct (clients (pool s)) as [ch |] eqn:Hc.
    + destruct (Z.ltb_spec (len ch) (cap ch)) as [Hlt | Hge].
      * rewrite (closePooledClient_returned h _ s ch Hh eq_refl Hc Hlt).
        repeat split.
      * rewrite (closePooledClient_fallback h _ s Hh eq_refl);
          [repeat split |].
        right. exists ch. split; [exact Hc | exact Hge].
    + rewrite (closePooledClient_fallback h _ s Hh eq_refl);
        [repeat split |].
      left. exact Hc.
Qed.

(** C9, as the code has it: when the release returned the client to the
    idle buffer, the handle's client reference is nil afterwards and a second
    release through it returns nil without running any teardown; when the
    release tore the client down (handle marked unusable, buffer full or pool
    closed), the handle is left as it was, client reference included. *)
Theorem Close_clears_returned_handle (s : State) (h : nat) (c : ClientObj) (u : bool)
    (Hh : heap s !! h = Some {| pc_Client := Some c; unusable := u |}) :
  let s' := snd (closePooledClient h s) in
  (returned_to_idle c s s' = true ->
   heap s' !! h = Some {| pc_Client := None; unusable := u |} /\
   fst (closePooledClient h s') = Ret None /\
   log (snd (closePooledClient h s')) = log s' /\
   opened (pool (snd (closePooledClient h s'))) = opened (pool s')) /\
  (torn_down c s s' = true ->
   heap s' !! h = Some {| pc_Client := Some c; unusable := u |}).
Proof.
  intros s'.
  destruct (release_cases s h c u Hh) as [(-> & ch & Hc & Hlt & E) | E].
  - assert (Hcleared : heap s' !! h = Some {| pc_Client := None; unusable := false |}).
    { subst s'. rewrite E. state_simpl.
      apply list_lookup_insert_eq. eapply lookup_lt_Some. exact Hh. }
    split.
    + intros _. split; [exact Hcleared |].
      apply (closePooledClient_cleared h false s' Hcleared).
    + intros Ht. exfalso. subst s'. rewrite E in Ht.
      unfold torn_down in Ht. state_simpl.
      apply bool_decide_eq_true in Ht. lia.
  - destruct (closeClient_torn_down c s) as [_ Hidle].
    destruct (closeClient_frame (Some c) s) as (_ & Fh & _).
    split.
    + intros Hr. exfalso. subst s'. rewrite E in Hr.
      unfold returned_to_idle in Hr. apply bool_decide_eq_true in Hr.
      rewrite Hidle in Hr. exact (app_singleton_neq _ _ Hr).
    + intros _. subst s'. rewrite E, Fh. exact Hh.
Qed.

Lemma Close_clears_returned_handle_witness :
  let s := run [OpGet (Sample.net_ok 0)] (init Sample.pool_1_0) in
  let s' := snd (closePooledClient 0%nat s) in
  heap s' !! 0%nat = Some {| pc_Client := None; unusable := false |} /\
  fst (closePooledClient 0%nat s') = Ret None /\
  log (snd (closePooledClient 0%nat s')) = log s' /\
  opened (pool (snd (closePooledClient 0%nat s'))) = opened (pool s').
Proof.
  intros s s'.
  destruct (Close_clears_returned_handle s 0%nat (Sample.client_of 0) false eq_refl)
    as [Hret _].
  apply Hret. reflexivity.
Defined.

(** C9 as stated fails on the teardown paths.  A handle marked unusable and
    closed still holds its client, and closing it again tears the same client
    down a second time: two teardowns in the log, and the counter, decremented
    twice from 1, wraps to 2^32-1.  A usable handle closed into a full buffer
    keeps its client too, and closing it again once the buffer has room puts
    the client that was torn down back among the idle ones. *)
Lemma Close_keeps_reference_counterexample :
  (let s := run [OpGet (Sample.net_ok 0); OpMarkUnusable 0%nat]
              (init Sample.pool_1_1) in
   let s1 := snd (closePooledClient 0%nat s) in
   let s2 := snd (closePooledClient 0%nat s1) in
   fst (closePooledClient 0%nat s) = Ret None /\
   ~ (exists cli, heap s1 !! 0%nat = Some cli /\ pc_Client cli = None) /\
   teardowns (Sample.client_of 0) (log s1) = 1%nat /\
   teardowns (Sample.client_of 0) (log s2) = 2%nat /\
   opened (pool s2) = 4294967295) /\
  (let s := run [OpGet (Sample.net_ok 0); OpGet (Sample.net_ok 1);
                 OpHandleClose 0%nat] (init Sample.pool_1_0) in
   let s1 := snd (closePooledClient 1%nat s) in
   let s2 := snd (closePooledClient 1%nat (run [OpGet (Sample.net_ok 2)] s1)) in
   fst (closePooledClient 1%nat s) = Ret None /\
   ~ (exists cli, heap s1 !! 1%nat = Some cli /\ pc_Client cli = None) /\
   teardowns (Sample.client_of 1) (log s1) = 1%nat /\
   idle_buf s2 = [Some (Sample.client_of 1)]).
Proof.
  vm_compute.
  repeat split; try (intros (cli & [= <-] & H); discriminate H).
Qed.

(** ** Shutdown *)

Lemma closeClient_result (cli : Client) (s : State) :
  well_shaped cli ->
  closeClient cli s = (Ret (teardown_result cli), snd (closeClient cli s)).
Proof.
  destruct cli as [c |]; [| reflexivity].
  intros Hw. rewrite closeClient_some. unfold teardown_result.
  simpl in Hw. destruct (Transport c); try reflexivity. congruence.
Qed.

Lemma drain_all (l : list Client) :
  forall (fuel : nat) (cp : Z) (err : option error) (s : State),
    (length l < fuel)%nat -> Forall well_shaped l ->
    drain fuel (Some {| cap := cp; buf := l |}) err s =
      (Ret (match err with
            | None => first_error (map teardown_result l)
            | Some _ => err
            end),
       teardown_all l s).
Proof.
  induction l as [| c rest IH]; intros fuel cp err s Hfuel Hw.
  - destruct fuel as [| fuel]; [simpl in Hfuel; lia |].
    simpl. unfold ret. destruct err; reflexivity.
  - destruct fuel as [| fuel]; [simpl in Hfuel; lia |].
    apply Forall_cons in Hw as [Hc Hrest].
    simpl. unfold bind. rewrite (closeClient_result c s Hc).
    rewrite IH by (simpl in Hfuel; try lia; assumption).
    destruct err as [e |]; [reflexivity |].
    destruct (teardown_result c); reflexivity.
Qed.

Lemma closeClient_opened (cli : Client) (s : State) :
  opened (pool (snd (closeClient cli s))) =
    match cli with
    | None => opened (pool s)
    | Some _ =>
        if maxOpen (pool s) =? 0 then opened (pool s)
        else wrap32 (opened (pool s) - 1)
    end.
Proof.
  destruct cli as [c |]; [| reflexivity].
  rewrite closeClient_some. destruct (Transport c); reflexivity.
Qed.

Lemma teardown_all_effect (l : list Client) :
  forall s : State,
    same_frame s (teardown_all l s) /\
    log (teardown_all l s) = log s ++ concat (map teardown_events l) /\
    opened (pool (teardown_all l s)) =
      (if maxOpen (pool s) =? 0 then opened (pool s)
       else decr_opened (live_count l) (opened (pool s))).
Proof.
  induction l as [| c rest IH]; intros s.
  - simpl. rewrite app_nil_r. split; [apply same_frame_refl |].
    split; [reflexivity |]. destruct (maxOpen (pool s) =? 0); reflexivity.
  - cbn [teardown_all fold_left map concat].
    fold (teardown_all rest (snd (closeClient c s))).
    destruct (IH (snd (closeClient c s))) as (F & L & O).
    pose proof (closeClient_frame c s) as Fc.
    split; [eapply same_frame_trans; eassumption |].
    split.
    + rewrite L, closeClient_log, app_assoc. reflexivity.
    + rewrite O, closeClient_opened.
      destruct Fc as (_ & _ & _ & -> & _).
      destruct c as [c |]; cbn [live_count decr_opened]; [| reflexivity].
      destruct (maxOpen (pool s) =? 0); reflexivity.
Qed.

Lemma first_error_None (l : list (option error)) :
  first_error l = None <-> Forall (fun r => r = None) l.
Proof.
  induction l as [| [e |] rest IH]; simpl.
  - split; [constructor | reflexivity].
  - split; [discriminate |]. intros H. apply Forall_cons in H as [H _]. exact H.
  - rewrite IH. split.
    + intros H. constructor; [reflexivity | exact H].
    + intros H. apply Forall_cons in H as [_ H]. exact H.
Qed.

(** The first error is the result of the first teardown that failed. *)
Lemma first_error_Some (l : list (option error)) (e : error) :
  first_error l = Some e <->
  exists i, l !! i = Some (Some e) /\ forall j, (j < i)%nat -> l !! j = Some None.
Proof.
  induction l as [| [e0 |] rest IH]; simpl.
  - split; [discriminate | intros (i & H & _); discriminate].
  - split.
    + intros [= ->]. exists 0%nat. split; [reflexivity |]. intros j Hj. lia.
    + intros ([| i] & H & Hbefore).
      * simpl in H. congruence.
      * specialize (Hbefore 0%nat ltac:(lia)). discriminate.
  - rewrite IH. split.
    + intros (i & H & Hbefore). exists (S i). split; [exact H |].
      intros [| j] Hj; [reflexivity |]. apply Hbefore. lia.
    + intros ([| i] & H & Hbefore); [discriminate |].
      exists i. split; [exact H |].
      intros j Hj. apply (Hbefore (S j)). lia.
Qed.

(** C5: shutdown of an open pool replaces the idle buffer by the nil
    channel and runs [closeClient] on every client that was in it, in order,
    to the last one whatever the earlier ones returned; it returns the error
    of the first teardown that failed, and nil exactly when none failed.
    The handles are not touched.  (Clients whose [Transport] field makes
    [closeClient] panic are excluded.) *)
Theorem Close_best_effort (s : State) (ch : chan) (fuel : nat)
    (Hopen : clients (pool s) = Some ch)
    (Hfuel : (length (buf ch) < fuel)%nat)
    (Hshape : Forall well_shaped (buf ch)) :
  let results := map teardown_result (buf ch) in
  exists s',
    Close fuel s = (Ret (first_error results), s') /\
    s' = teardown_all (buf ch) (with_clients None s) /\
    clients (pool s') = None /\
    heap s' = heap s /\
    log s' = log s ++ concat (map teardown_events (buf ch)) /\
    opened (pool s') =
      (if maxOpen (pool s) =? 0 then opened (pool s)
       else decr_opened (live_count (buf ch)) (opened (pool s))) /\
    (first_error results = None <-> Forall (fun r => r = None) results) /\
    (forall e,
       first_error results = Some e <->
       exists i, results !! i = Some (Some e) /\
                 forall j, (j < i)%nat -> results !! j = Some None).
Proof.
  intros results.
  exists (teardown_all (buf ch) (with_clients None s)).
  destruct (teardown_all_effect (buf ch) (with_clients None s))
    as ((F1 & F2 & _) & L & O).
  split.
  - unfold Close. unfold_prims. rewrite Hopen.
    destruct ch as [cp l]. cbn [buf] in *.
    apply (drain_all l fuel cp None _ Hfuel Hshape).
  - split; [reflexivity |].
    split; [exact F1 |]. split; [exact F2 |]. split; [exact L |].
    split; [exact O |].
    split; [apply first_error_None | intros e; apply first_error_Some].
Qed.

Lemma Close_best_effort_witness :
  exists s',
    Close 4 Sample.three_idle = (Ret (Some (ErrForeign "close failed")), s') /\
    clients (pool s') = None /\
    log s' =
      [EvFieldByName (Sample.client_of 0);
       EvTransportClose (Sample.transport_of 0);
       EvFieldByName (Sample.stuck_client 1);
       EvTransportClose
         {| tr_id := 1; tr_Close := Some (ErrForeign "close failed") |};
       EvFieldByName (Sample.client_of 2);
       EvTransportClose (Sample.transport_of 2)] /\
    opened (pool s') = 1.
Proof.
  destruct (Close_best_effort Sample.three_idle
              {| cap := 3;
                 buf := [Some (Sample.client_of 0); Some (Sample.stuck_client 1);
                         Some (Sample.client_of 2)] |} 4)
    as (s' & E & _ & Hc & _ & Hl & Ho & _).
  - reflexivity.
  - simpl. lia.
  - repeat constructor; discriminate.
  - exists s'. split; [exact E |]. split; [exact Hc |].
    split; [exact Hl | exact Ho].
Defined.

(** ** Nothing waits *)

Lemma closeClient_returns (cli : Client) (s : State) :
  match fst (closeClient cli s) with
  | Ret _ | Panic => True
  | Blocked | OutOfFuel => False
  end.
Proof.
  destruct cli as [c |]; [| exact I].
  rewrite closeClient_some. destruct (Transport c); exact I.
Qed.

Lemma drain_returns (fuel : nat) :
  forall (ch : chan) (err : option error) (s : State),
    (length (buf ch) < fuel)%nat ->
    match fst (drain fuel (Some ch) err s) with
    | Ret _ | Panic => True
    | Blocked | OutOfFuel => False
    end.
Proof.
  induction fuel as [| fuel IH]; intros ch err s Hfuel; [lia |].
  simpl. unfold try_recv.
  destruct (buf ch) as [| c rest] eqn:Hb; [exact I |].
  unfold bind.
  pose proof (closeClient_returns c s) as Hc.
  destruct (closeClient c s) as [[curErr | | |] s1]; try exact Hc.
  apply IH. simpl in *. lia.
Qed.

Lemma closeClient_any_heap (cli : Client) (hp : list pooledClient) (s : State) :
  closeClient cli (with_heap hp s) =
    (fst (closeClient cli s), with_heap hp (snd (closeClient cli s))).
Proof.
  destruct cli as [c |]; [| reflexivity].
  rewrite (closeClient_some c s), (closeClient_some c (with_heap hp s)).
  destruct (Transport c); reflexivity.
Qed.

Lemma drain_any_heap (fuel : nat) :
  forall (cs : option chan) (err : option error) (hp : list pooledClient)
         (s : State),
    drain fuel cs err (with_heap hp s) =
      (fst (drain fuel cs err s), with_heap hp (snd (drain fuel cs err s))).
Proof.
  induction fuel as [| fuel IH]; intros cs err hp s; [reflexivity |].
  simpl. destruct cs as [ch |]; [| reflexivity].
  destruct (try_recv ch) as [[rawCli ch'] |]; [| reflexivity].
  unfold bind. rewrite closeClient_any_heap.
  destruct (closeClient rawCli s) as [[curErr | | |] s1]; try reflexivity.
  apply IH.
Qed.

(** C6: a release through a handle always comes back (with a value or a
    panic), it never waits; the drain loop of the shutdown comes back after at
    most one round per idle client plus one; and the handles still checked
    out play no part in it: with any other heap of handles the outcome is the
    same, and the heap is left alone. *)
Theorem Close_never_waits (s : State) :
  (forall h,
     match fst (closePooledClient h s) with
     | Ret _ | Panic => True
     | Blocked | OutOfFuel => False
     end) /\
  (forall fuel,
     (length (idle_buf s) < fuel)%nat ->
     match fst (Close fuel s) with
     | Ret _ | Panic => True
     | Blocked | OutOfFuel => False
     end) /\
  (forall fuel hp,
     Close fuel (with_heap hp s) =
       (fst (Close fuel s), with_heap hp (snd (Close fuel s)))).
Proof.
  split; [| split].
  - intros h.
    destruct (heap s !! h) as [[[c |] u] |] eqn:Hh.
    + destruct (release_cases s h c u Hh) as [(_ & ch & _ & _ & ->) | ->];
        [exact I | apply closeClient_returns].
    + destruct (closePooledClient_cleared h u s Hh) as [-> _]. exact I.
    + rewrite (closePooledClient_dangling h s Hh). exact I.
  - intros fuel Hfuel. unfold Close. unfold_prims. unfold idle_buf in Hfuel.
    destruct (clients (pool s)) as [ch |].
    + apply drain_returns. exact Hfuel.
    + destruct fuel; [simpl in Hfuel; lia | exact I].
  - intros fuel hp. unfold Close. unfold_prims.
    apply (drain_any_heap fuel (clients (pool s)) None hp (with_clients None s)).
Qed.

Lemma Close_never_waits_witness :
  (length (idle_buf Sample.three_idle) < 4)%nat /\
  match fst (Close 4 Sample.three_idle) with
  | Ret _ | Panic => True
  | Blocked | OutOfFuel => False
  end.
Proof.
  assert (Hfuel : (length (idle_buf Sample.three_idle) < 4)%nat)
    by (simpl; lia).
  split; [exact Hfuel |].
  destruct (Close_never_waits Sample.three_idle) as (_ & H & _).
  exact (H 4%nat Hfuel).
Defined.

(** ** Concurrent acquisition *)

(** The cuts of [thread_step] put together again are [Get]: a goroutine that
    runs alone reaches, in six steps, the result and the state of [Get]. *)
Lemma thread_alone (net : Net) (s : State) :
  thread_run 6 net PcGetFromPool s =
    match Get net s with
    | (Ret r, s') => (PcDone r, s')
    | (_, s') => (PcPanic, s')
    end.
Proof.
  unfold Get. unfold bind at 1.
  cbn [thread_run thread_step].
  destruct (clients (pool s)) as [ch |] eqn:Hc.
  - destruct (buf ch) as [| c rest] eqn:Hb.
    + rewrite (getFromPool_empty s ch Hc Hb).
      destruct (decide (Some errNoPooledClient = Some ErrPoolClosed)) as [D | _];
        [discriminate D |].
      unfold bind at 1. unfold openClient. unfold_prims. cbn [thread_step].
      destruct (negb (maxOpen (pool s) =? 0) && (maxOpen (pool s) <=? opened (pool s)));
        [reflexivity |].
      cbn [thread_step].
      destruct (pick_server (rand_Int net) (servers (pool s))) as [server |];
        [| reflexivity].
      state_simpl.
      destruct (NewTSocket net server) as [socket | e]; [| reflexivity].
      destruct (Open net socket) as [e |]; [reflexivity |].
      cbn [thread_step]. state_simpl. unfold_prims.
      unfold with_log, with_heap, with_opened. state_simpl.
      destruct (maxOpen (pool s) =? 0); state_simpl; reflexivity.
    + rewrite (getFromPool_pop s ch c rest Hc Hb).
      destruct (decide (None = Some ErrPoolClosed)) as [D | _];
        [discriminate D |].
      destruct c as [c |]; [reflexivity |].
      unfold bind at 1. unfold openClient. unfold_prims.
      cbn [thread_step]. state_simpl.
      destruct (negb (maxOpen (pool s) =? 0) && (maxOpen (pool s) <=? opened (pool s)));
        [reflexivity |].
      cbn [thread_step]. state_simpl.
      destruct (pick_server (rand_Int net) (servers (pool s))) as [server |];
        [| reflexivity].
      state_simpl.
      destruct (NewTSocket net server) as [socket | e]; [| reflexivity].
      destruct (Open net socket) as [e |]; [reflexivity |].
      cbn [thread_step]. state_simpl. unfold_prims.
      unfold with_log, with_heap, with_opened. state_simpl.
      destruct (maxOpen (pool s) =? 0); state_simpl; reflexivity.
  - rewrite (getFromPool_closed s Hc).
    destruct (decide (Some ErrPoolClosed = Some ErrPoolClosed)) as [_ | N];
      [reflexivity | congruence].
Qed.

(** An idle client is handed out as it is, without any dial. *)
Lemma Get_reuse (net : Net) (s : State) (ch : chan) (c : ClientObj)
    (rest : list Client) :
  clients (pool s) = Some ch -> buf ch = Some c :: rest ->
  Get net s =
    (Ret (Some (length (heap s)), None),
     with_heap (heap s ++ [{| pc_Client := Some c; unusable := false |}])
       (with_clients (Some {| cap := cap ch; buf := rest |}) s)).
Proof.
  intros Hc Hb. unfold Get. unfold bind at 1.
  rewrite (getFromPool_pop s ch (Some c) rest Hc Hb).
  destruct (decide (None = Some ErrPoolClosed)) as [D | _];
    [discriminate D | reflexivity].
Qed.

Lemma Get_closed (net : Net) (s : State) :
  clients (pool s) = None ->
  Get net s = (Ret (None, Some ErrPoolClosed), s).
Proof.
  intros Hc. unfold Get. unfold bind at 1. rewrite (getFromPool_closed s Hc).
  destruct (decide (Some ErrPoolClosed = Some ErrPoolClosed)) as [_ | N];
    [reflexivity | congruence].
Qed.

(** A [Get] that runs without interference respects the ceiling. *)
Lemma Get_keeps_ceiling (net : Net) (s : State) :
  maxOpen (pool s) <> 0 -> maxOpen (pool s) < 2 ^ 32 ->
  0 <= opened (pool s) <= maxOpen (pool s) ->
  0 <= opened (pool (snd (Get net s))) <= maxOpen (pool (snd (Get net s))).
Proof.
  intros Hn Hmax Hle.
  assert (Hopen : forall s0,
            maxOpen (pool s0) = maxOpen (pool s) ->
            opened (pool s0) = opened (pool s) ->
            0 <= opened (pool (snd (openClient net s0)))
              <= maxOpen (pool (snd (openClient net s0)))).
  { intros s0 Hm Ho. unfold openClient. unfold_prims.
    rewrite Hm, Ho. apply Z.eqb_neq in Hn. rewrite Hn. cbn [negb andb].
    destruct (Z.leb_spec (maxOpen (pool s)) (opened (pool s))) as [Hfull | Hroom];
      [state_simpl; lia |].
    destruct (pick_server (rand_Int net) (servers (pool s0))) as [server |];
      [| state_simpl; lia].
    state_simpl.
    destruct (NewTSocket net server) as [socket | e]; [| state_simpl; lia].
    destruct (Open net socket) as [e |]; state_simpl; [lia |].
    rewrite Hm, Ho, (wrap32_succ _ (maxOpen (pool s))); lia. }
  assert (Hvia : forall s0 e,
            getFromPool s = (Ret (None, e), s0) -> e <> Some ErrPoolClosed ->
            maxOpen (pool s0) = maxOpen (pool s) ->
            opened (pool s0) = opened (pool s) ->
            0 <= opened (pool (snd (Get net s)))
              <= maxOpen (pool (snd (Get net s)))).
  { intros s0 e H Hne Hm Ho.
    rewrite (Get_via_open net s s0 e H Hne).
    specialize (Hopen s0 Hm Ho).
    destruct (openClient net s0) as [[[rawCli [e' |]] | | |] s']; exact Hopen. }
  destruct (clients (pool s)) as [ch |] eqn:Hc.
  - destruct (buf ch) as [| c rest] eqn:Hb.
    + apply (Hvia s (Some errNoPooledClient));
        [apply (getFromPool_empty s ch Hc Hb) | discriminate | reflexivity ..].
    + destruct c as [c |].
      * rewrite (Get_reuse net s ch c rest Hc Hb). exact Hle.
      * apply (Hvia (with_clients (Some {| cap := cap ch; buf := rest |}) s) None);
          [apply (getFromPool_pop s ch None rest Hc Hb) | discriminate
          | reflexivity ..].
  - rewrite (Get_closed net s Hc). exact Hle.
Qed.

(** C1 at its failing input: two goroutines call [Get] on a fresh pool with
    [maxOpen = 1].  Scheduled in turns, both read [opened = 0] before either
    adds to it, both dial, and both come back with a handle and no error,
    with [opened = 2 > maxOpen]. *)
Theorem concurrent_Get_overshoots :
  let c := interleave [0; 1; 0; 1; 0; 1; 0; 1; 0; 1; 0; 1]%nat
             (spawn [Sample.net_ok 0; Sample.net_ok 1] (init Sample.pool_1_1)) in
  maxOpen (pool (shared c)) = 1 /\
  opened (pool (shared c)) = 2 /\
  map holds_handle (threads c) = [true; true] /\
  map (fun t => snd t)
    (threads (interleave [0; 1; 0; 1]%nat
                (spawn [Sample.net_ok 0; Sample.net_ok 1] (init Sample.pool_1_1))))
    = [PcDial; PcDial].
Proof. vm_compute. repeat split. Qed.

(** ** The older variant *)

Lemma Legacy_closeClient_some (c : ClientObj) (s : State) :
  Legacy.closeClient (Some c) s =
    let s1 := with_log (log s ++ [EvFieldByName c]) s in
    match Transport c with
    | FieldMissing => (Ret (Some ErrClientMissingTransportField), s1)
    | FieldNil => (Ret (Some ErrClientNilTransportField), s1)
    | FieldInvalid => (Panic, s1)
    | FieldTransport t =>
        (Ret (tr_Close t),
         with_log (log s ++ [EvFieldByName c; EvTransportClose t])
           (with_opened (wrap32 (opened (pool s) - 1)) s))
    end.
Proof.
  unfold Legacy.closeClient. unfold_prims.
  destruct (Transport c); try reflexivity.
  unfold with_log, with_opened. state_simpl.
  rewrite <- app_assoc. reflexivity.
Qed.

(** There the counter goes down only when a transport is found, and also
    when [maxOpen] is 0. *)
Lemma Legacy_closeClient_counter (c : ClientObj) (s : State) :
  opened (pool (snd (Legacy.closeClient (Some c) s))) =
    match Transport c with
    | FieldTransport _ => wrap32 (opened (pool s) - 1)
    | _ => opened (pool s)
    end.
Proof. rewrite Legacy_closeClient_some. destruct (Transport c); reflexivity. Qed.

Lemma Legacy_closeClient_frame (cli : Client) (s : State) :
  same_frame s (snd (Legacy.closeClient cli s)).
Proof.
  destruct cli as [c |]; [| apply same_frame_refl].
  rewrite Legacy_closeClient_some. destruct (Transport c); repeat split.
Qed.

(** There the drain loop receives without a [default] branch from a channel
    that nobody closes: once the idle clients are torn down it waits for
    ever, so the shutdown never returns. *)
Lemma Legacy_drain_never_returns (fuel : nat) :
  forall (cs : option chan) (err : option error) (s : State),
    match fst (Legacy.drain fuel cs err s) with
    | Ret _ => False
    | Panic | Blocked | OutOfFuel => True
    end.
Proof.
  induction fuel as [| fuel IH]; intros cs err s; [exact I |].
  simpl. destruct cs as [ch |]; [| exact I].
  destruct (try_recv ch) as [[rawCli ch'] |]; [| exact I].
  unfold bind.
  destruct (Legacy.closeClient rawCli s) as [[curErr | | |] s1]; try exact I.
  apply IH.
Qed.

Lemma Legacy_Close_never_returns (fuel : nat) (s : State) :
  match fst (Legacy.Close fuel s) with
  | Ret _ => False
  | Panic | Blocked | OutOfFuel => True
  end.
Proof.
  unfold Legacy.Close. unfold_prims.
  apply Legacy_drain_never_returns.
Qed.

(** With enough rounds for the idle clients, it is the wait that ends it. *)
Lemma Legacy_drain_blocks (l : list Client) :
  forall (fuel : nat) (cp : Z) (err : option error) (s : State),
    (length l < fuel)%nat -> Forall well_shaped l ->
    fst (Legacy.drain fuel (Some {| cap := cp; buf := l |}) err s) = Blocked.
Proof.
  induction l as [| c rest IH]; intros fuel cp err s Hfuel Hw.
  - destruct fuel as [| fuel]; [simpl in Hfuel; lia | reflexivity].
  - destruct fuel as [| fuel]; [simpl in Hfuel; lia |].
    apply Forall_cons in Hw as [Hc Hrest].
    simpl. unfold bind.
    destruct c as [c |].
    + rewrite Legacy_closeClient_some. simpl in Hc.
      destruct (Transport c); cbv zeta; try congruence;
        apply IH; simpl in Hfuel; try lia; assumption.
    + apply IH; simpl in Hfuel; try lia; assumption.
Qed.

(** There a release never clears the handle, on any path. *)
Lemma Legacy_closePooledClient_keeps_handle (h : nat) (s : State) :
  heap (snd (Legacy.closePooledClient h s)) = heap s.
Proof.
  unfold Legacy.closePooledClient. unfold bind at 1. unfold deref.
  destruct (heap s !! h) as [cli |]; [| reflexivity].
  destruct (unusable cli); cbn [negb];
    [apply (Legacy_closeClient_frame (pc_Client cli) s) |].
  unfold bind, get_pool.
  destruct (clients (pool s)) as [ch |];
    [| apply (Legacy_closeClient_frame (pc_Client cli) s)].
  destruct (try_send ch (pc_Client cli));
    [reflexivity | apply (Legacy_closeClient_frame (pc_Client cli) s)].
Qed.

(** There too [Get] gives a handle or an error, never both, never neither. *)
Lemma Legacy_Get_exclusive (net : Net) (s : State) :
  match Legacy.Get net s with
  | (Ret (cli, err), _) => cli <> None <-> err = None
  | (Panic, _) => pick_server (rand_Int net) (servers (pool s)) = None
  | (Blocked, _) => False
  | (OutOfFuel, _) => False
  end.
Proof.
  unfold Legacy.Get, Legacy.getClients, Legacy.maxOpenReached, Legacy.openClient.
  unfold_prims.
  destruct (clients (pool s)) as [ch |];
    [| split; [intros N; congruence | discriminate]].
  destruct (try_recv ch) as [[[c |] ch'] |]; state_simpl;
    try (split; [reflexivity | discriminate]).
  - destruct (maxOpen (pool s) =? 0); [| destruct (maxOpen (pool s) <=? opened (pool s))];
      try (split; [intros N; congruence | discriminate]);
      state_simpl;
      (destruct (pick_server (rand_Int net) (servers (pool s))) as [server |];
       [| reflexivity]);
      state_simpl;
      (destruct (NewTSocket net server) as [socket | e];
       [| split; [intros N; congruence | discriminate]]);
      (destruct (Open net socket) as [e |];
       [split; [intros N; congruence | discriminate] |]);
      state_simpl; (split; [reflexivity | discriminate]).
  - destruct (maxOpen (pool s) =? 0); [| destruct (maxOpen (pool s) <=? opened (pool s))];
      try (split; [intros N; congruence | discriminate]);
      state_simpl;
      (destruct (pick_server (rand_Int net) (servers (pool s))) as [server |];
       [| reflexivity]);
      state_simpl;
      (destruct (NewTSocket net server) as [socket | e];
       [| split; [intros N; congruence | discriminate]]);
      (destruct (Open net socket) as [e |];
       [split; [intros N; congruence | discriminate] |]);
      state_simpl; (split; [reflexivity | discriminate]).
Qed.

(** The same acquisitions and releases as in the counterexample to the
    nil-ing of handles, on the older variant: the handle that went back to
    the idle buffer still holds its client, and a second release through it
    puts the client into the buffer twice. *)
Lemma Legacy_double_release :
  let s0 := init (NewChannelClientPool 2 0 ["10.0.0.1:9090"%string] 100 500
                    Sample.factory) in
  let s1 := snd (Legacy.Get (Sample.net_ok 0) s0) in
  let s2 := snd (Legacy.closePooledClient 0%nat s1) in
  let s3 := snd (Legacy.closePooledClient 0%nat s2) in
  heap s2 !! 0%nat =
    Some {| pc_Client := Some (Sample.client_of 0); unusable := false |} /\
  idle_buf s3 = [Some (Sample.client_of 0); Some (Sample.client_of 0)].
Proof. vm_compute. split; reflexivity. Qed.

Lemma Legacy_thread_alone (net : Net) (s : State) :
  Legacy.thread_run 5 net PcGetFromPool s =
    match Legacy.Get net s with
    | (Ret r, s') => (PcDone r, s')
    | (_, s') => (PcPanic, s')
    end.
Proof.
  unfold Legacy.Get, Legacy.getClients, Legacy.maxOpenReached, Legacy.openClient.
  cbn [Legacy.thread_run Legacy.thread_step]. unfold_prims.
  destruct (clients (pool s)) as [ch |]; [| reflexivity].
  destruct (try_recv ch) as [[[c |] ch'] |];
    cbn [Legacy.thread_step]; unfold Legacy.maxOpenReached; unfold_prims;
    state_simpl; try reflexivity.
  - destruct (maxOpen (pool s) =? 0); [| destruct (maxOpen (pool s) <=? opened (pool s))];
      try reflexivity;
      cbn [Legacy.thread_step]; state_simpl;
      (destruct (pick_server (rand_Int net) (servers (pool s))) as [server |];
       [| reflexivity]);
      state_simpl;
      (destruct (NewTSocket net server) as [socket | e]; [| reflexivity]);
      (destruct (Open net socket) as [e |]; [reflexivity |]);
      cbn [Legacy.thread_step]; unfold_prims; state_simpl; reflexivity.
  - destruct (maxOpen (pool s) =? 0); [| destruct (maxOpen (pool s) <=? opened (pool s))];
      try reflexivity;
      cbn [Legacy.thread_step]; state_simpl;
      (destruct (pick_server (rand_Int net) (servers (pool s))) as [server |];
       [| reflexivity]);
      state_simpl;
      (destruct (NewTSocket net server) as [socket | e]; [| reflexivity]);
      (destruct (Open net socket) as [e |]; [reflexivity |]);
      cbn [Legacy.thread_step]; unfold_prims; state_simpl; reflexivity.
Qed.

(** The same overshoot there: [maxOpenReached] gives the mutex back before
    [openClient] takes it again for the increment. *)
Lemma Legacy_concurrent_Get_overshoots :
  let c := Legacy.interleave [0; 1; 0; 1; 0; 1; 0; 1; 0; 1]%nat
             (spawn [Sample.net_ok 0; Sample.net_ok 1] (init Sample.pool_1_1)) in
  maxOpen (pool (shared c)) = 1 /\
  opened (pool (shared c)) = 2 /\
  map holds_handle (threads c) = [true; true].
Proof. vm_compute. repeat split. Qed.

(** * Further properties of the pool *)

(** ** Helpers *)

Lemma openClient_success (net : Net) (s : State) (server : string)
    (socket : TSocket) :
  maxOpen (pool s) = 0 \/ opened (pool s) < maxOpen (pool s) ->
  dials net (servers (pool s)) server socket ->
  openClient net s = (Ret (clientFactory (pool s) socket, None), dialed server socket s).
Proof.
  intros Hceil (Hpick & Hs & Ho).
  assert (Hgo : negb (maxOpen (pool s) =? 0) && (maxOpen (pool s) <=? opened (pool s))
                = false).
  { destruct Hceil as [H0 | Hlt].
    - rewrite H0. reflexivity.
    - apply andb_false_iff. right. apply Z.leb_gt. exact Hlt. }
  unfold openClient, dialed. unfold_prims.
  rewrite Hgo, Hpick. state_simpl. rewrite Hs, Ho.
  destruct (maxOpen (pool s) =? 0); state_simpl;
    unfold with_log, with_opened; state_simpl;
    rewrite <- !app_assoc; try reflexivity.
  destruct s as [[] ? ?]. reflexivity.
Qed.

(** [openClient] neither reads nor writes the idle buffer. *)
Lemma openClient_any_clients (net : Net) (cs : option chan) (s : State) :
  openClient net (with_clients cs s) =
    (fst (openClient net s), with_clients cs (snd (openClient net s))).
Proof.
  unfold openClient. unfold_prims. state_simpl.
  destruct (negb (maxOpen (pool s) =? 0) && (maxOpen (pool s) <=? opened (pool s)));
    [reflexivity |].
  destruct (pick_server (rand_Int net) (servers (pool s))) as [server |];
    [| reflexivity].
  state_simpl.
  destruct (NewTSocket net server) as [socket | e]; [| reflexivity].
  destruct (Open net socket) as [e |]; [reflexivity |].
  destruct (maxOpen (pool s) =? 0); reflexivity.
Qed.

(** What [openClient] does to the counter. *)
Lemma openClient_counter (net : Net) (s : State) :
  opened (pool (snd (openClient net s))) = opened (pool s) \/
  (maxOpen (pool s) <> 0 /\ opened (pool s) < maxOpen (pool s) /\
   opened (pool (snd (openClient net s))) = wrap32 (opened (pool s) + 1)).
Proof.
  unfold openClient. unfold_prims.
  destruct (Z.eqb_spec (maxOpen (pool s)) 0) as [H0 | Hn]; cbn [negb andb].
  - destruct (pick_server (rand_Int net) (servers (pool s))) as [server |];
      [| left; reflexivity].
    state_simpl.
    destruct (NewTSocket net server) as [socket | e]; [| left; reflexivity].
    destruct (Open net socket) as [e |]; left; reflexivity.
  - destruct (Z.leb_spec (maxOpen (pool s)) (opened (pool s))) as [Hfull | Hroom];
      [left; reflexivity |].
    destruct (pick_server (rand_Int net) (servers (pool s))) as [server |];
      [| left; reflexivity].
    state_simpl.
    destruct (NewTSocket net server) as [socket | e]; [| left; reflexivity].
    destruct (Open net socket) as [e |]; [left; reflexivity |].
    right. split; [exact Hn | split; [exact Hroom | reflexivity]].
Qed.

Lemma Get_counter (net : Net) (s : State) :
  maxOpen (pool (snd (Get net s))) = maxOpen (pool s) /\
  (opened (pool (snd (Get net s))) = opened (pool s) \/
   (maxOpen (pool s) <> 0 /\ opened (pool s) < maxOpen (pool s) /\
    opened (pool (snd (Get net s))) = wrap32 (opened (pool s) + 1))).
Proof.
  assert (Hvia : forall s0 e,
            getFromPool s = (Ret (None, e), s0) -> e <> Some ErrPoolClosed ->
            maxOpen (pool s0) = maxOpen (pool s) ->
            opened (pool s0) = opened (pool s) ->
            maxOpen (pool (snd (Get net s))) = maxOpen (pool s) /\
            (opened (pool (snd (Get net s))) = opened (pool s) \/
             (maxOpen (pool s) <> 0 /\ opened (pool s) < maxOpen (pool s) /\
              opened (pool (snd (Get net s))) = wrap32 (opened (pool s) + 1)))).
  { intros s0 e H Hne Hm Ho.
    rewrite (Get_via_open net s s0 e H Hne).
    destruct (openClient_shape net s0) as [(_ & _ & _ & F4 & _) _].
    pose proof (openClient_counter net s0) as Hc.
    rewrite Hm, Ho in Hc. rewrite Hm in F4.
    destruct (openClient net s0) as [[[rawCli [e' |]] | | |] s'];
      state_simpl; split; assumption. }
  destruct (clients (pool s)) as [ch |] eqn:Hc.
  - destruct (buf ch) as [| c rest] eqn:Hb.
    + apply (Hvia s (Some errNoPooledClient));
        [apply (getFromPool_empty s ch Hc Hb) | discriminate | reflexivity ..].
    + destruct c as [c |].
      * rewrite (Get_reuse net s ch c rest Hc Hb). split; [| left]; reflexivity.
      * apply (Hvia (with_clients (Some {| cap := cap ch; buf := rest |}) s) None);
          [apply (getFromPool_pop s ch None rest Hc Hb) | discriminate
          | reflexivity ..].
  - rewrite (Get_closed net s Hc). split; [| left]; reflexivity.
Qed.

Lemma closePooledClient_counter (h : nat) (s : State) :
  maxOpen (pool (snd (closePooledClient h s))) = maxOpen (pool s) /\
  (opened (pool (snd (closePooledClient h s))) = opened (pool s) \/
   (maxOpen (pool s) <> 0 /\
    opened (pool (snd (closePooledClient h s))) = wrap32 (opened (pool s) - 1))).
Proof.
  assert (Htear : forall cli,
            closePooledClient h s = closeClient cli s ->
            maxOpen (pool (snd (closePooledClient h s))) = maxOpen (pool s) /\
            (opened (pool (snd (closePooledClient h s))) = opened (pool s) \/
             (maxOpen (pool s) <> 0 /\
              opened (pool (snd (closePooledClient h s)))
                = wrap32 (opened (pool s) - 1)))).
  { intros cli ->.
    destruct (closeClient_frame cli s) as (_ & _ & _ & F4 & _).
    split; [exact F4 |]. rewrite closeClient_opened.
    destruct cli as [c |]; [| left; reflexivity].
    destruct (Z.eqb_spec (maxOpen (pool s)) 0) as [H0 | Hn];
      [left; reflexivity | right; split; [exact Hn | reflexivity]]. }
  destruct (heap s !! h) as [[cli u] |] eqn:Hh.
  2:{ rewrite (closePooledClient_dangling h s Hh). split; [| left]; reflexivity. }
  destruct u.
  { apply (Htear cli). apply (closePooledClient_unusable h _ s Hh). reflexivity. }
  destruct (clients (pool s)) as [ch |] eqn:Hc.
  - destruct (Z.ltb_spec (len ch) (cap ch)) as [Hlt | Hge].
    + rewrite (closePooledClient_returned h _ s ch Hh eq_refl Hc Hlt).
      split; [| left]; reflexivity.
    + apply (Htear cli). apply (closePooledClient_fallback h _ s Hh eq_refl).
      right. exists ch. split; [exact Hc | exact Hge].
  - apply (Htear cli). apply (closePooledClient_fallback h _ s Hh eq_refl).
    left. exact Hc.
Qed.

(** ** Reuse of idle clients *)

(** X1: a client released through a usable handle into an open pool with an
    empty buffer of capacity at least 1 is what the next [Get] hands out: the
    new handle holds that very client, the old handle holds nil, and the
    round trip makes no call to a collaborator and leaves the counter and the
    buffer as they were. *)
Theorem release_then_Get (net : Net) (s : State) (h : nat) (c : ClientObj)
    (ch : chan)
    (Hh : heap s !! h = Some {| pc_Client := Some c; unusable := false |})
    (Hc : clients (pool s) = Some ch)
    (Hb : buf ch = [])
    (Hcap : 0 < cap ch) :
  let s1 := snd (closePooledClient h s) in
  let s2 := snd (Get net s1) in
  let h' := length (heap s) in
  fst (closePooledClient h s) = Ret None /\
  fst (Get net s1) = Ret (Some h', None) /\
  fst (RawClient h' s2) = Ret (Some c) /\
  fst (RawClient h s2) = Ret None /\
  log s2 = log s /\
  opened (pool s2) = opened (pool s) /\
  clients (pool s2) = clients (pool s).
Proof.
  assert (Hlt : len ch < cap ch) by (unfold len; rewrite Hb; simpl; lia).
  assert (Hlen : (h < length (heap s))%nat) by (eapply lookup_lt_Some; exact Hh).
  cbv zeta.
  rewrite (closePooledClient_returned h _ s ch Hh eq_refl Hc Hlt).
  cbn [fst snd pc_Client]. rewrite Hb. cbn [app].
  rewrite (Get_reuse net
             (with_heap
                (<[h := {| pc_Client := None; unusable := false |}]> (heap s))
                (with_clients (Some {| cap := cap ch; buf := [Some c] |}) s))
             {| cap := cap ch; buf := [Some c] |} c [] eq_refl eq_refl).
  cbn [fst snd]. state_simpl. rewrite length_insert.
  unfold RawClient. unfold_prims. state_simpl.
  rewrite lookup_app_r by (rewrite length_insert; lia).
  rewrite length_insert, Nat.sub_diag. cbn [lookup list_lookup].
  rewrite lookup_app_l by (rewrite length_insert; exact Hlen).
  rewrite list_lookup_insert_eq by exact Hlen.
  repeat split; try reflexivity.
  rewrite Hc. destruct ch as [cp b]. cbn in *. subst b. reflexivity.
Qed.

Lemma release_then_Get_witness :
  let s := snd (Get (Sample.net_ok 0) (init Sample.pool_1_1)) in
  let s1 := snd (closePooledClient 0%nat s) in
  let s2 := snd (Get (Sample.net_ok 1) s1) in
  fst (Get (Sample.net_ok 1) s1) = Ret (Some 1%nat, None) /\
  fst (RawClient 1%nat s2) = Ret (Some (Sample.client_of 0)) /\
  log s2 = log s.
Proof.
  intros s s1 s2.
  destruct (release_then_Get (Sample.net_ok 1) s 0%nat (Sample.client_of 0)
              {| cap := 1; buf := [] |})
    as (_ & Hg & Hr & _ & Hl & _).
  - reflexivity.
  - reflexivity.
  - reflexivity.
  - simpl. lia.
  - split; [exact Hg | split; [exact Hr | exact Hl]].
Defined.

(** X2: the idle buffer is a queue.  When its first entries are the clients
    [cs], that many calls of [Get] return fresh handles holding [cs] in that
    order, whatever the network would answer: no collaborator is called, the
    counter does not move, and the rest of the buffer stays idle. *)
Theorem Get_drains_in_order (cs : list ClientObj) :
  forall (nets : list Net) (s : State) (ch : chan) (rest : list Client),
    clients (pool s) = Some ch ->
    buf ch = map Some cs ++ rest ->
    length nets = length cs ->
    let s' := run (map OpGet nets) s in
    heap s' =
      heap s ++ map (fun c => {| pc_Client := Some c; unusable := false |}) cs /\
    clients (pool s') = Some {| cap := cap ch; buf := rest |} /\
    log s' = log s /\
    opened (pool s') = opened (pool s).
Proof.
  induction cs as [| c cs IH]; intros nets s ch rest Hc Hb Hn.
  - destruct nets; [| discriminate Hn]. cbn.
    rewrite app_nil_r, Hc. destruct ch as [cp b]. cbn in *. subst b.
    repeat split.
  - destruct nets as [| net nets]; [discriminate Hn |].
    cbn [map run fold_left exec].
    fold (run (map OpGet nets) (snd (Get net s))).
    rewrite (Get_reuse net s ch c (map Some cs ++ rest) Hc Hb). cbn [snd].
    destruct (IH nets
                (with_heap (heap s ++ [{| pc_Client := Some c; unusable := false |}])
                   (with_clients
                      (Some {| cap := cap ch; buf := map Some cs ++ rest |}) s))
                {| cap := cap ch; buf := map Some cs ++ rest |} rest
                eq_refl eq_refl ltac:(simpl in Hn; lia))
      as (Hh & Hcl & Hl & Ho).
    state_simpl.
    split; [rewrite Hh, <- app_assoc; reflexivity |].
    split; [exact Hcl | split; [exact Hl | exact Ho]].
Qed.

Lemma Get_drains_in_order_witness :
  let s' := run [OpGet Sample.net_refused; OpGet Sample.net_refused]
              Sample.three_idle in
  heap s' =
    heap Sample.three_idle ++
    [{| pc_Client := Some (Sample.client_of 0); unusable := false |};
     {| pc_Client := Some (Sample.stuck_client 1); unusable := false |}] /\
  log s' = log Sample.three_idle.
Proof.
  intros s'.
  destruct (Get_drains_in_order [Sample.client_of 0; Sample.stuck_client 1]
              [Sample.net_refused; Sample.net_refused] Sample.three_idle
              {| cap := 3;
                 buf := [Some (Sample.client_of 0); Some (Sample.stuck_client 1);
                         Some (Sample.client_of 2)] |}
              [Some (Sample.client_of 2)])
    as (Hh & _ & Hl & _).
  - reflexivity.
  - reflexivity.
  - reflexivity.
  - split; [exact Hh | exact Hl].
Defined.

(** X3: what a release does to [Size()] on an open pool: through a usable
    handle that holds a client it grows by one when the buffer has room and
    stays as it is when the buffer is full; through a handle marked unusable
    it stays as it is. *)
Theorem Size_after_release (s : State) (h : nat) (c : ClientObj) (u : bool)
    (ch : chan)
    (Hh : heap s !! h = Some {| pc_Client := Some c; unusable := u |})
    (Hc : clients (pool s) = Some ch) :
  fst (Size s) = Ret (len ch) /\
  fst (Size (snd (closePooledClient h s))) =
    Ret (if negb u && (len ch <? cap ch) then len ch + 1 else len ch).
Proof.
  split; [unfold Size; unfold_prims; rewrite Hc; reflexivity |].
  assert (Htear : closePooledClient h s = closeClient (Some c) s ->
            fst (Size (snd (closePooledClient h s))) = Ret (len ch)).
  { intros ->. unfold Size. unfold_prims.
    destruct (closeClient_frame (Some c) s) as (-> & _). rewrite Hc. reflexivity. }
  destruct u; cbn [negb andb].
  - apply Htear. apply (closePooledClient_unusable h _ s Hh). reflexivity.
  - destruct (Z.ltb_spec (len ch) (cap ch)) as [Hlt | Hge].
    + rewrite (closePooledClient_returned h _ s ch Hh eq_refl Hc Hlt).
      unfold Size. unfold_prims. state_simpl.
      unfold len. cbn [buf]. rewrite length_app. cbn [length].
      f_equal. lia.
    + apply Htear. apply (closePooledClient_fallback h _ s Hh eq_refl).
      right. exists ch. split; [exact Hc | exact Hge].
Qed.

Lemma Size_after_release_witness :
  let s := snd (Get (Sample.net_ok 0) (init Sample.pool_1_1)) in
  fst (Size s) = Ret 0 /\
  fst (Size (snd (closePooledClient 0%nat s))) = Ret 1.
Proof.
  intros s.
  apply (Size_after_release s 0%nat (Sample.client_of 0) false
           {| cap := 1; buf := [] |}); reflexivity.
Defined.

(** X4: marking is for good.  Once a handle is marked unusable, no call of
    the API changes it again: it stays unusable and keeps its client
    reference, also through its own [Close]. *)
Theorem unusable_is_sticky (ops : list op) :
  forall (s : State) (h : nat) (cli : Client),
    heap s !! h = Some {| pc_Client := cli; unusable := true |} ->
    heap (run ops s) !! h = Some {| pc_Client := cli; unusable := true |}.
Proof.
  induction ops as [| o ops IH]; intros s h cli Hh; [exact Hh |].
  cbn [run fold_left]. fold (run ops (exec o s)).
  apply IH.
  destruct o as [net | h' | h' | h' | |]; cbn [exec].
  - destruct (Get_shape net s) as (_ & _ & _ & [-> | (rawCli & -> & _)]);
      [exact Hh |].
    rewrite lookup_app_l by (eapply lookup_lt_Some; exact Hh). exact Hh.
  - unfold RawClient. unfold_prims. destruct (heap s !! h'); exact Hh.
  - unfold MarkUnusable. unfold_prims.
    destruct (heap s !! h') as [cli' |] eqn:E; [| exact Hh].
    state_simpl.
    destruct (decide (h' = h)) as [-> | Hne].
    + rewrite list_lookup_insert_eq by (eapply lookup_lt_Some; exact Hh).
      rewrite Hh in E. injection E as <-. reflexivity.
    + rewrite list_lookup_insert_ne by exact Hne. exact Hh.
  - unfold pooledClient_Close.
    destruct (closePooledClient_shape h' s)
      as (_ & _ & [[_ ->] | (cli' & ch & Hl & U & _ & _ & _ & ->)]);
      [exact Hh |].
    destruct (decide (h' = h)) as [-> | Hne].
    + rewrite Hh in Hl. injection Hl as <-. discriminate U.
    + rewrite list_lookup_insert_ne by exact Hne. exact Hh.
  - unfold Close. unfold_prims.
    destruct (drain_frame (S (length (idle_buf s))) (clients (pool s)) None
                (with_clients None s)) as (_ & -> & _).
    exact Hh.
  - exact Hh.
Qed.

Lemma unusable_is_sticky_witness :
  let s := run [OpGet (Sample.net_ok 0); OpMarkUnusable 0%nat]
             (init Sample.pool_1_0) in
  heap (run [OpHandleClose 0%nat; OpGet (Sample.net_ok 1); OpHandleClose 0%nat] s)
    !! 0%nat
  = Some {| pc_Client := Some (Sample.client_of 0); unusable := true |}.
Proof.
  intros s.
  apply (unusable_is_sticky
           [OpHandleClose 0%nat; OpGet (Sample.net_ok 1); OpHandleClose 0%nat]
           s 0%nat (Some (Sample.client_of 0))).
  reflexivity.
Defined.

(** ** The counter without a ceiling *)

Lemma drain_counter_off (fuel : nat) :
  forall (cs : option chan) (err : option error) (s : State),
    maxOpen (pool s) = 0 ->
    opened (pool (snd (drain fuel cs err s))) = opened (pool s).
Proof.
  induction fuel as [| fuel IH]; intros cs err s H0; [reflexivity |].
  simpl. destruct cs as [ch |]; [| reflexivity].
  destruct (try_recv ch) as [[rawCli ch'] |]; [| reflexivity].
  unfold bind.
  pose proof (closeClient_opened rawCli s) as Ho.
  destruct (closeClient_frame rawCli s) as (_ & _ & _ & Fm & _).
  rewrite H0 in Ho, Fm. cbn [Z.eqb] in Ho.
  assert (Ho' : opened (pool (snd (closeClient rawCli s))) = opened (pool s))
    by (destruct rawCli; exact Ho).
  destruct (closeClient rawCli s) as [[curErr | | |] s1]; cbn [snd] in *;
    try exact Ho'.
  rewrite IH by exact Fm. exact Ho'.
Qed.

Lemma exec_counter_off (o : op) (s : State) :
  maxOpen (pool s) = 0 ->
  maxOpen (pool (exec o s)) = 0 /\ opened (pool (exec o s)) = opened (pool s).
Proof.
  intros H0.
  destruct o as [net | h | h | h | |]; cbn [exec].
  - destruct (Get_counter net s) as [Hm [Ho | (Hn & _)]];
      [split; congruence | contradiction].
  - unfold RawClient. unfold_prims. destruct (heap s !! h); split; trivial.
  - unfold MarkUnusable. unfold_prims. destruct (heap s !! h); split; trivial.
  - unfold pooledClient_Close.
    destruct (closePooledClient_counter h s) as [Hm [Ho | (Hn & _)]];
      [split; congruence | contradiction].
  - unfold Close. unfold_prims. split.
    + destruct (drain_frame (S (length (idle_buf s))) (clients (pool s)) None
                  (with_clients None s)) as (_ & _ & _ & -> & _).
      exact H0.
    + rewrite drain_counter_off by exact H0. reflexivity.
  - split; trivial.
Qed.

(** X5: with [maxOpen = 0] the pool does not count.  No sequence of calls
    changes [opened]: opening, tearing down and shutting down all leave it
    at the value it had. *)
Theorem no_ceiling_no_counting (ops : list op) :
  forall s : State,
    maxOpen (pool s) = 0 ->
    maxOpen (pool (run ops s)) = 0 /\
    opened (pool (run ops s)) = opened (pool s).
Proof.
  induction ops as [| o ops IH]; intros s H0; [split; [exact H0 | reflexivity] |].
  cbn [run fold_left]. fold (run ops (exec o s)).
  destruct (exec_counter_off o s H0) as [Hm Ho].
  destruct (IH (exec o s) Hm) as [Hm' Ho'].
  split; [exact Hm' | congruence].
Qed.

Lemma no_ceiling_no_counting_witness :
  opened (pool (run [OpGet (Sample.net_ok 0); OpGet (Sample.net_ok 1);
                     OpMarkUnusable 0%nat; OpHandleClose 0%nat;
                     OpHandleClose 1%nat; OpClose] (init Sample.pool_1_0)))
  = opened (pool (init Sample.pool_1_0)).
Proof.
  apply (no_ceiling_no_counting
           [OpGet (Sample.net_ok 0); OpGet (Sample.net_ok 1);
            OpMarkUnusable 0%nat; OpHandleClose 0%nat;
            OpHandleClose 1%nat; OpClose] (init Sample.pool_1_0)).
  reflexivity.
Defined.

(** ** After the shutdown *)

Lemma with_clients_closed (s : State) :
  clients (pool s) = None -> with_clients None s = s.
Proof. destruct s as [[] ? ?]. cbn. intros ->. reflexivity. Qed.

Lemma exec_stays_closed (o : op) (s : State) :
  clients (pool s) = None -> clients (pool (exec o s)) = None.
Proof.
  intros Hc.
  destruct o as [net | h | h | h | |]; cbn [exec].
  - rewrite (Get_closed net s Hc). exact Hc.
  - unfold RawClient. unfold_prims. destruct (heap s !! h); exact Hc.
  - unfold MarkUnusable. unfold_prims. destruct (heap s !! h); exact Hc.
  - unfold pooledClient_Close.
    destruct (closePooledClient_shape h s)
      as (_ & _ & [[-> _] | (cli & ch & _ & _ & Hsome & _)]);
      [exact Hc | congruence].
  - apply Close_closes.
  - exact Hc.
Qed.

(** X6: the closed state is final.  Once [pool.clients] is nil no sequence
    of calls makes it a channel again: every later [Get] fails with
    [ErrPoolClosed] and changes nothing, [Size()] is 0, and a further
    shutdown returns nil at once and changes nothing. *)
Theorem closed_is_final (ops : list op) :
  forall s : State,
    clients (pool s) = None ->
    let s' := run ops s in
    clients (pool s') = None /\
    (forall net, Get net s' = (Ret (None, Some ErrPoolClosed), s')) /\
    Size s' = (Ret 0, s') /\
    (forall fuel, Close (S fuel) s' = (Ret None, s')).
Proof.
  induction ops as [| o ops IH]; intros s Hc.
  - cbn [run fold_left]. cbv zeta.
    split; [exact Hc |].
    split; [intros net; apply Get_closed; exact Hc |].
    split; [unfold Size; unfold_prims; rewrite Hc; reflexivity |].
    intros fuel. unfold Close. unfold_prims. rewrite Hc.
    cbn [drain]. unfold ret. rewrite (with_clients_closed s Hc). reflexivity.
  - cbn [run fold_left]. fold (run ops (exec o s)).
    apply IH. apply exec_stays_closed. exact Hc.
Qed.

Lemma closed_is_final_witness :
  let s' := run [OpGet (Sample.net_ok 5); OpHandleClose 0%nat]
              (snd (Close 4 Sample.three_idle)) in
  clients (pool s') = None /\
  Get (Sample.net_ok 6) s' = (Ret (None, Some ErrPoolClosed), s').
Proof.
  intros s'.
  destruct (closed_is_final [OpGet (Sample.net_ok 5); OpHandleClose 0%nat]
              (snd (Close 4 Sample.three_idle)))
    as (Hc & Hg & _).
  - reflexivity.
  - split; [exact Hc | apply Hg].
Defined.

(** X7: a handle checked out before the shutdown is torn down when it is
    released afterwards, marked or not: the release is [closeClient] on its
    client, one teardown is started, the pool stays closed, and for a client
    with a transport the release returns what the transport's [Close]
    returns. *)
Theorem release_after_shutdown (s : State) (fuel : nat) (h : nat)
    (c : ClientObj) (u : bool)
    (Hh : heap s !! h = Some {| pc_Client := Some c; unusable := u |}) :
  let s1 := snd (Close fuel s) in
  let s2 := snd (closePooledClient h s1) in
  closePooledClient h s1 = closeClient (Some c) s1 /\
  torn_down c s1 s2 = true /\
  clients (pool s2) = None /\
  (forall t, Transport c = FieldTransport t ->
     fst (closePooledClient h s1) = Ret (tr_Close t)).
Proof.
  cbv zeta.
  assert (Hc : clients (pool (snd (Close fuel s))) = None) by apply Close_closes.
  assert (Hh1 : heap (snd (Close fuel s)) !! h
                = Some {| pc_Client := Some c; unusable := u |}).
  { unfold Close. unfold_prims.
    destruct (drain_frame fuel (clients (pool s)) None (with_clients None s))
      as (_ & -> & _).
    exact Hh. }
  assert (E : closePooledClient h (snd (Close fuel s))
              = closeClient (Some c) (snd (Close fuel s))).
  { destruct u.
    - apply (closePooledClient_unusable h _ _ Hh1). reflexivity.
    - apply (closePooledClient_fallback h _ _ Hh1 eq_refl). left. exact Hc. }
  split; [exact E |]. rewrite E.
  destruct (closeClient_torn_down c (snd (Close fuel s))) as [Ht _].
  destruct (closeClient_frame (Some c) (snd (Close fuel s))) as (Fc & _).
  split; [exact Ht |]. split; [rewrite Fc; exact Hc |].
  intros t Ht'. rewrite closeClient_some, Ht'. reflexivity.
Qed.

Lemma release_after_shutdown_witness :
  let s1 := snd (Close 4 Sample.three_idle) in
  closePooledClient 0%nat s1 = closeClient (Some (Sample.client_of 3)) s1 /\
  fst (closePooledClient 0%nat s1) = Ret None.
Proof.
  intros s1.
  destruct (release_after_shutdown Sample.three_idle 4 0%nat
              (Sample.client_of 3) false eq_refl)
    as (E & _ & _ & Hr).
  split; [exact E |].
  apply (Hr (Sample.transport_of 3)). reflexivity.
Defined.

(** ** Nil entries in the idle buffer *)

(** X8: releasing twice through a usable handle, into a buffer with room
    for two, puts the client and then a nil into the idle buffer: both calls
    return nil, no teardown runs, and [Size()] has grown by two although one
    connection was returned. *)
Theorem double_release_queues_nil (s : State) (h : nat) (c : ClientObj)
    (ch : chan)
    (Hh : heap s !! h = Some {| pc_Client := Some c; unusable := false |})
    (Hc : clients (pool s) = Some ch)
    (Hroom : len ch + 1 < cap ch) :
  let s1 := snd (closePooledClient h s) in
  let s2 := snd (closePooledClient h s1) in
  fst (closePooledClient h s) = Ret None /\
  fst (closePooledClient h s1) = Ret None /\
  idle_buf s2 = buf ch ++ [Some c; None] /\
  log s2 = log s /\
  fst (Size s2) = Ret (len ch + 2).
Proof.
  assert (Hlen : (h < length (heap s))%nat) by (eapply lookup_lt_Some; exact Hh).
  assert (Hlt : len ch < cap ch) by lia.
  cbv zeta.
  rewrite (closePooledClient_returned h _ s ch Hh eq_refl Hc Hlt).
  cbn [fst snd pc_Client].
  rewrite (closePooledClient_returned h
             {| pc_Client := None; unusable := false |}
             (with_heap
                (<[h := {| pc_Client := None; unusable := false |}]> (heap s))
                (with_clients
                   (Some {| cap := cap ch; buf := buf ch ++ [Some c] |}) s))
             {| cap := cap ch; buf := buf ch ++ [Some c] |}).
  - cbn [fst snd pc_Client]. unfold idle_buf, Size. unfold_prims. state_simpl.
    rewrite <- app_assoc. cbn [app].
    repeat split; try reflexivity.
    unfold len. cbn [buf]. rewrite length_app. cbn [length]. f_equal. lia.
  - state_simpl. apply list_lookup_insert_eq. exact Hlen.
  - reflexivity.
  - reflexivity.
  - unfold len in *. cbn [cap buf]. rewrite length_app. cbn [length]. lia.
Qed.

Lemma double_release_queues_nil_witness :
  let s := with_clients (Some {| cap := 2; buf := [] |})
             (snd (Get (Sample.net_ok 0) (init Sample.pool_1_1))) in
  let s2 := snd (closePooledClient 0%nat (snd (closePooledClient 0%nat s))) in
  idle_buf s2 = [Some (Sample.client_of 0); None] /\
  fst (Size s2) = Ret 2.
Proof.
  intros s s2.
  destruct (double_release_queues_nil s 0%nat (Sample.client_of 0)
              {| cap := 2; buf := [] |})
    as (_ & _ & Hb & _ & Hs).
  - reflexivity.
  - reflexivity.
  - unfold len. simpl. lia.
  - split; [exact Hb | exact Hs].
Defined.

(** X9: a nil at the head of the idle buffer is dropped by [Get], which then
    goes on exactly as on an empty buffer: it tests the ceiling and dials,
    whatever idle clients stand behind the nil; these stay in the buffer. *)
Theorem Get_skips_nil_entry (net : Net) (s : State) (ch : chan)
    (rest : list Client)
    (Hc : clients (pool s) = Some ch)
    (Hb : buf ch = None :: rest) :
  Get net s =
    (fst (Get net (with_clients (Some {| cap := cap ch; buf := [] |}) s)),
     with_clients (Some {| cap := cap ch; buf := rest |})
       (snd (Get net (with_clients (Some {| cap := cap ch; buf := [] |}) s)))).
Proof.
  rewrite (Get_via_open net s
             (with_clients (Some {| cap := cap ch; buf := rest |}) s) None
             (getFromPool_pop s ch None rest Hc Hb)) by discriminate.
  rewrite (Get_empty net
             (with_clients (Some {| cap := cap ch; buf := [] |}) s)
             {| cap := cap ch; buf := [] |} eq_refl eq_refl).
  rewrite !openClient_any_clients.
  destruct (openClient net s) as [[[rawCli [e |]] | | |] s']; reflexivity.
Qed.

Lemma Get_skips_nil_entry_witness :
  let s := with_opened 1
             (with_clients
                (Some {| cap := 2; buf := [None; Some (Sample.client_of 0)] |})
                (init Sample.pool_1_1)) in
  fst (Get (Sample.net_ok 1) s) = Ret (None, Some ErrPoolMaxOpenReached) /\
  idle_buf (snd (Get (Sample.net_ok 1) s)) = [Some (Sample.client_of 0)].
Proof.
  intros s.
  pose proof (Get_skips_nil_entry (Sample.net_ok 1) s
                {| cap := 2; buf := [None; Some (Sample.client_of 0)] |}
                [Some (Sample.client_of 0)] eq_refl eq_refl) as E.
  rewrite E. split; reflexivity.
Defined.

(** ** Scoped use keeps the counter right *)

Lemma Get_accounted (net : Net) (s : State) :
  accounted s ->
  (forall socket, clientFactory (pool s) socket <> None) ->
  match Get net s with
  | (Ret (Some h, _), s1) =>
      one_checked_out s1 /\
      exists c, heap s1 !! h = Some {| pc_Client := Some c; unusable := false |}
  | (_, s1) => accounted s1
  end.
Proof.
  intros (ch & Hc & Hall & Hcap & Ho & Hmax & Hle) Hfac.
  destruct (buf ch) as [| [c |] rest] eqn:Hb.
  - (* empty buffer: the counter is 0, the ceiling is not reached *)
    assert (Ho0 : opened (pool s) = 0)
      by (rewrite Ho; unfold len; rewrite Hb; reflexivity).
    assert (Hacc : forall l, accounted (with_log l s)).
    { intros l. exists ch. state_simpl. rewrite Hb.
      repeat split; try assumption; lia. }
    rewrite (Get_empty net s ch Hc Hb).
    unfold openClient. unfold_prims.
    destruct (Z.eqb_spec (maxOpen (pool s)) 0) as [H0 | _]; [lia |].
    destruct (Z.leb_spec (maxOpen (pool s)) (opened (pool s))) as [Hfull | _];
      [lia |].
    cbn [negb andb].
    destruct (pick_server (rand_Int net) (servers (pool s))) as [server |].
    2:{ exists ch. rewrite Hb. repeat split; try assumption; lia. }
    state_simpl.
    destruct (NewTSocket net server) as [socket | e]; [| apply Hacc].
    destruct (Open net socket) as [e |]; [apply Hacc |].
    state_simpl. split.
    + exists ch. state_simpl. rewrite Hb, Ho0.
      rewrite wrap32_small by lia.
      unfold len in *. rewrite Hb in *. cbn [length] in *.
      repeat split; try assumption; lia.
    + destruct (clientFactory (pool s) socket) as [c |] eqn:Hf;
        [| exfalso; exact (Hfac socket Hf)].
      exists c. apply list_lookup_middle. reflexivity.
  - rewrite (Get_reuse net s ch c rest Hc Hb).
    apply Forall_cons in Hall as [_ Hrest].
    unfold len in *. rewrite Hb in *. cbn [length] in *.
    split.
    + exists {| cap := cap ch; buf := rest |}. unfold len. state_simpl.
      repeat split; try assumption; lia.
    + exists c. state_simpl. apply list_lookup_middle. reflexivity.
  - apply Forall_cons in Hall as [Hnil _]. congruence.
Qed.

Lemma release_accounted (h : nat) (c : ClientObj) (u : bool) (s : State) :
  one_checked_out s ->
  heap s !! h = Some {| pc_Client := Some c; unusable := u |} ->
  accounted (snd (closePooledClient h s)).
Proof.
  intros (ch & Hc & Hall & Hcap & Ho & Hmax & Hle) Hh.
  assert (Hlen0 : 0 <= len ch) by (unfold len; lia).
  destruct (release_cases s h c u Hh) as [(_ & ch0 & Hc0 & Hlt & ->) | ->].
  - rewrite Hc in Hc0. injection Hc0 as <-.
    exists {| cap := cap ch; buf := buf ch ++ [Some c] |}. state_simpl.
    unfold len in *. cbn [buf]. rewrite length_app. cbn [length].
    repeat split; try assumption; try lia.
    apply Forall_app. split; [exact Hall |].
    constructor; [discriminate | constructor].
  - destruct (closeClient_frame (Some c) s) as (Fc & _ & _ & Fm & _).
    exists ch. rewrite Fc, Fm, closeClient_opened.
    destruct (Z.eqb_spec (maxOpen (pool s)) 0) as [H0 | _]; [lia |].
    rewrite wrap32_pred by lia.
    repeat split; try assumption; lia.
Qed.

Lemma session_state (net : Net) (mark : bool) (s : State) :
  snd (session net mark s) =
    match Get net s with
    | (Ret (Some h, _), s1) =>
        match heap s1 !! h with
        | Some cli =>
            snd (closePooledClient h
                   (if mark
                    then with_heap
                           (<[h := {| pc_Client := pc_Client cli;
                                      unusable := true |}]> (heap s1)) s1
                    else s1))
        | None => s1
        end
    | (_, s1) => s1
    end.
Proof.
  unfold session. unfold bind at 1.
  destruct (Get net s) as [[[[h |] err] | | |] s1]; try reflexivity.
  unfold RawClient, MarkUnusable, pooledClient_Close. unfold_prims.
  destruct (heap s1 !! h) as [cli |] eqn:Hh; [| reflexivity].
  destruct mark.
  - rewrite Hh.
    destruct (closePooledClient h _) as [[r | | |] s2]; reflexivity.
  - destruct (closePooledClient h s1) as [[r | | |] s2]; reflexivity.
Qed.

Lemma session_accounted (net : Net) (mark : bool) (s : State) :
  accounted s ->
  (forall socket, clientFactory (pool s) socket <> None) ->
  accounted (snd (session net mark s)) /\
  clientFactory (pool (snd (session net mark s))) = clientFactory (pool s).
Proof.
  intros Hacc Hfac.
  rewrite session_state.
  pose proof (Get_accounted net s Hacc Hfac) as HG.
  destruct (Get_shape net s) as (_ & Hf & _).
  destruct (Get net s) as [[[[h |] err] | | |] s1]; cbn [snd] in Hf;
    try (split; assumption).
  destruct HG as [Hone (c & Hh)]. rewrite Hh. cbn [pc_Client].
  destruct mark.
  - split.
    + apply (release_accounted h c true).
      * destruct Hone as (ch & H). exists ch. exact H.
      * state_simpl. apply list_lookup_insert_eq.
        eapply lookup_lt_Some. exact Hh.
    + destruct (closePooledClient_shape h
                  (with_heap
                     (<[h := {| pc_Client := Some c; unusable := true |}]> (heap s1))
                     s1)) as (_ & -> & _).
      exact Hf.
  - split; [apply (release_accounted h c false); assumption |].
    destruct (closePooledClient_shape h s1) as (_ & -> & _). exact Hf.
Qed.

(** X10: scoped use does not leak.  Starting from a state where [opened] is
    the number of idle clients (as in a fresh pool with a ceiling), any number
    of closures of the form Get, use, mark unusable or not, Close, run one
    after the other, end in such a state again: [opened] equals [Size()], is
    within [maxIdle]'s buffer and within [maxOpen], whatever the dials and the
    teardowns returned.  The factory must return clients, not nil. *)
Theorem sessions_keep_account (l : list (Net * bool)) :
  forall s : State,
    accounted s ->
    (forall socket, clientFactory (pool s) socket <> None) ->
    let s' := sessions l s in
    accounted s' /\
    fst (Size s') = Ret (opened (pool s')) /\
    0 <= opened (pool s') <= maxOpen (pool s').
Proof.
  induction l as [| [net mark] l IH]; intros s Hacc Hfac.
  - cbn. split; [exact Hacc |].
    destruct Hacc as (ch & Hc & _ & _ & Ho & _ & Hle).
    unfold Size. unfold_prims. rewrite Hc, Ho.
    split; [reflexivity |]. rewrite <- Ho. unfold len in Ho. lia.
  - cbn [sessions fold_left fst snd].
    fold (sessions l (snd (session net mark s))).
    destruct (session_accounted net mark s Hacc Hfac) as [Hacc' Hf].
    apply IH; [exact Hacc' |]. rewrite Hf. exact Hfac.
Qed.

Lemma sessions_keep_account_witness :
  let s' := sessions [(Sample.net_ok 0, false); (Sample.net_ok 1, true);
                      (Sample.net_refused, false); (Sample.net_ok 2, false)]
              (init Sample.pool_1_1) in
  fst (Size s') = Ret (opened (pool s')) /\
  0 <= opened (pool s') <= maxOpen (pool s').
Proof.
  intros s'.
  destruct (sessions_keep_account
              [(Sample.net_ok 0, false); (Sample.net_ok 1, true);
               (Sample.net_refused, false); (Sample.net_ok 2, false)]
              (init Sample.pool_1_1))
    as (_ & Hs & Hr).
  - exists {| cap := 1; buf := [] |}. cbn. unfold len. cbn.
    repeat split; try lia. constructor.
  - intros socket. discriminate.
  - split; [exact Hs | exact Hr].
Defined.

(** [Get] on an empty buffer, below the ceiling, when the dial succeeds. *)
Lemma Get_dials (net : Net) (s : State) (ch : chan) (server : string)
    (socket : TSocket) :
  clients (pool s) = Some ch -> buf ch = [] ->
  maxOpen (pool s) = 0 \/ opened (pool s) < maxOpen (pool s) ->
  dials net (servers (pool s)) server socket ->
  Get net s =
    (Ret (Some (length (heap s)), None),
     with_heap
       (heap s ++ [{| pc_Client := clientFactory (pool s) socket;
                      unusable := false |}])
       (dialed server socket s)).
Proof.
  intros Hc Hb Hceil Hd.
  rewrite (Get_empty net s ch Hc Hb), (openClient_success net s server socket Hceil Hd).
  reflexivity.
Qed.

(** X11: the run of [TestGet], for any pool with room for one idle client.
    On a fresh pool, a closure that does not mark its handle followed by one
    that does: the first dials and leaves its client idle, the second gets
    that client without a dial and tears it down.  In the end the log holds
    one dial and one transport close, the idle buffer is empty, the counter
    is back at 0, the first handle is cleared and the second still holds the
    client. *)
Theorem TestGet_reuses_then_retires (k mo : Z) (srv : list string) (ct rt : Z)
    (factory : TSocket -> Client) (net1 net2 : Net)
    (server : string) (socket : TSocket) (c : ClientObj) (t : TTransport)
    (Hk : 0 < k)
    (Hmo : 0 <= mo < 2 ^ 32)
    (Hdial : dials net1 srv server socket)
    (Hfac : factory socket = Some c)
    (Htr : Transport c = FieldTransport t) :
  let s' := sessions [(net1, false); (net2, true)]
              (init (NewChannelClientPool k mo srv ct rt factory)) in
  log s' = [EvNewTSocket server; EvSetTimeout socket ct; EvOpen socket;
            EvSetTimeout socket rt; EvFactory socket;
            EvFieldByName c; EvTransportClose t] /\
  idle_buf s' = [] /\
  opened (pool s') = 0 /\
  heap s' = [{| pc_Client := None; unusable := false |};
             {| pc_Client := Some c; unusable := true |}].
Proof.
  cbv zeta. unfold sessions. cbn [fold_left fst snd].
  set (s0 := init (NewChannelClientPool k mo srv ct rt factory)).
  assert (Hceil : maxOpen (pool s0) = 0 \/ opened (pool s0) < maxOpen (pool s0))
    by (cbn; lia).
  (* first closure: dial, then back to the idle buffer *)
  rewrite (session_state net1 false s0).
  rewrite (Get_dials net1 s0 {| cap := k; buf := [] |} server socket
             eq_refl eq_refl Hceil Hdial).
  cbn [heap s0 init length app lookup list_lookup with_heap dialed with_log].
  cbn [clientFactory pool s0 init NewChannelClientPool]. rewrite Hfac.
  set (s1 := with_heap _ _).
  rewrite (closePooledClient_returned 0%nat
             {| pc_Client := Some c; unusable := false |} s1
             {| cap := k; buf := [] |} eq_refl eq_refl eq_refl Hk).
  cbn [snd pc_Client app buf cap].
  set (s2 := with_heap _ _).
  (* second closure: the idle client, marked, torn down *)
  rewrite (session_state net2 true s2).
  rewrite (Get_reuse net2 s2 {| cap := k; buf := [Some c] |} c []
             eq_refl eq_refl).
  cbn [heap s2 s1 with_heap with_clients length list_insert insert app
       lookup list_lookup pc_Client].
  set (s3 := with_heap _ _).
  rewrite (closePooledClient_unusable 1%nat
             {| pc_Client := Some c; unusable := true |} s3 eq_refl eq_refl).
  cbn [pc_Client]. rewrite closeClient_some, Htr. cbn [snd].
  unfold idle_buf, teardown_started, dialed.
  subst s3 s2 s1 s0. cbn.
  destruct (Z.eqb_spec mo 0) as [-> | Hn]; cbn; repeat split.
Qed.

Lemma TestGet_reuses_then_retires_witness :
  let s' := sessions [(Sample.net_ok 0, false); (Sample.net_refused, true)]
              (init Sample.pool_1_0) in
  idle_buf s' = [] /\
  heap s' = [{| pc_Client := None; unusable := false |};
             {| pc_Client := Some (Sample.client_of 0); unusable := true |}].
Proof.
  intros s'.
  destruct (TestGet_reuses_then_retires 1 0 ["10.0.0.1:9090"%string] 100 500
              Sample.factory (Sample.net_ok 0) Sample.net_refused
              "10.0.0.1:9090"%string
              {| sock_addr := "10.0.0.1:9090"; sock_id := 0 |}
              (Sample.client_of 0) (Sample.transport_of 0))
    as (_ & Hb & _ & Hh).
  - lia.
  - lia.
  - repeat split.
  - reflexivity.
  - reflexivity.
  - split; [exact Hb | exact Hh].
Defined.

(** ** The ceiling without interference *)

(** X12: calls of [Get] that run one after the other never take the counter
    above the ceiling: from [0 <= opened <= maxOpen < 2^32] with
    [maxOpen <> 0], any number of them leaves [opened] within these bounds. *)
Theorem Gets_respect_ceiling (nets : list Net) :
  forall s : State,
    maxOpen (pool s) <> 0 -> maxOpen (pool s) < 2 ^ 32 ->
    0 <= opened (pool s) <= maxOpen (pool s) ->
    let s' := run (map OpGet nets) s in
    maxOpen (pool s') = maxOpen (pool s) /\
    0 <= opened (pool s') <= maxOpen (pool s).
Proof.
  induction nets as [| net nets IH]; intros s Hn Hmax Hle.
  - cbn. split; [reflexivity | exact Hle].
  - cbn [map run fold_left exec]. fold (run (map OpGet nets) (snd (Get net s))).
    pose proof (Get_keeps_ceiling net s Hn Hmax Hle) as Hstep.
    destruct (Get_counter net s) as [Hm _].
    rewrite Hm in Hstep.
    destruct (IH (snd (Get net s))) as [Hm' Hle']; try (rewrite Hm; assumption).
    cbv zeta. rewrite Hm in *. split; assumption.
Qed.

Lemma Gets_respect_ceiling_witness :
  let s' := run (map OpGet [Sample.net_ok 0; Sample.net_ok 1; Sample.net_ok 2])
              (init Sample.pool_1_1) in
  maxOpen (pool s') = 1 /\ 0 <= opened (pool s') <= 1.
Proof.
  apply (Gets_respect_ceiling [Sample.net_ok 0; Sample.net_ok 1; Sample.net_ok 2]
           (init Sample.pool_1_1)); cbn; lia.
Defined.

(** ** The older variant, further *)

Lemma Legacy_closeClient_log (cli : Client) (s : State) :
  log (snd (Legacy.closeClient cli s)) = log s ++ teardown_events cli.
Proof.
  destruct cli as [c |]; [| simpl; rewrite app_nil_r; reflexivity].
  rewrite Legacy_closeClient_some. unfold teardown_events.
  destruct (Transport c); reflexivity.
Qed.

Lemma Legacy_drain_log (l : list Client) :
  forall (fuel : nat) (cp : Z) (err : option error) (s : State),
    (length l < fuel)%nat -> Forall well_shaped l ->
    log (snd (Legacy.drain fuel (Some {| cap := cp; buf := l |}) err s))
      = log s ++ concat (map teardown_events l).
Proof.
  induction l as [| c rest IH]; intros fuel cp err s Hfuel Hw.
  - destruct fuel as [| fuel]; [simpl in Hfuel; lia |].
    simpl. rewrite app_nil_r. reflexivity.
  - destruct fuel as [| fuel]; [simpl in Hfuel; lia |].
    apply Forall_cons in Hw as [Hc Hrest].
    cbn [Legacy.drain try_recv buf cap map concat]. unfold bind.
    pose proof (Legacy_closeClient_log c s) as Hl.
    assert (Hret : exists r, fst (Legacy.closeClient c s) = Ret r).
    { destruct c as [c |]; [| exists None; reflexivity].
      rewrite Legacy_closeClient_some. simpl in Hc.
      destruct (Transport c); cbv zeta; try congruence; eexists; reflexivity. }
    destruct Hret as [r Hr].
    destruct (Legacy.closeClient c s) as [o s1]. cbn [fst snd] in *. subst o.
    rewrite IH by (simpl in Hfuel; try lia; assumption).
    rewrite Hl, app_assoc. reflexivity.
Qed.

(** X13: in the older variant the shutdown does not come back.  Whatever
    the number of rounds, [Close] never returns a value; with rounds enough
    for the idle clients it swaps the channel for nil, tears every idle
    client down in order, and then waits on the empty channel. *)
Theorem Legacy_Close_tears_down_then_waits (s : State) (ch : chan) (fuel : nat)
    (Hopen : clients (pool s) = Some ch)
    (Hfuel : (length (buf ch) < fuel)%nat)
    (Hshape : Forall well_shaped (buf ch)) :
  (forall n, match fst (Legacy.Close n s) with
             | Ret _ => False
             | Panic | Blocked | OutOfFuel => True
             end) /\
  fst (Legacy.Close fuel s) = Blocked /\
  clients (pool (snd (Legacy.Close fuel s))) = None /\
  log (snd (Legacy.Close fuel s)) = log s ++ concat (map teardown_events (buf ch)).
Proof.
  split.
  { intros n. unfold Legacy.Close. unfold_prims. apply Legacy_drain_never_returns. }
  unfold Legacy.Close. unfold_prims. rewrite Hopen.
  destruct ch as [cp l]. cbn [buf] in *.
  split; [apply Legacy_drain_blocks; assumption |].
  split; [| apply (Legacy_drain_log l fuel cp None (with_clients None s) Hfuel Hshape)].
  assert (Hframe : forall n cs err t,
            clients (pool (snd (Legacy.drain n cs err t))) = clients (pool t)).
  { induction n as [| n IH]; intros cs err t; [reflexivity |].
    simpl. destruct cs as [ch |]; [| reflexivity].
    destruct (try_recv ch) as [[rawCli ch'] |]; [| reflexivity].
    unfold bind.
    destruct (Legacy_closeClient_frame rawCli t) as (Fc & _).
    destruct (Legacy.closeClient rawCli t) as [[curErr | | |] t1];
      cbn [snd] in *; try exact Fc.
    rewrite IH. exact Fc. }
  rewrite Hframe. reflexivity.
Qed.

Lemma Legacy_Close_tears_down_then_waits_witness :
  fst (Legacy.Close 4 Sample.three_idle) = Blocked /\
  log (snd (Legacy.Close 4 Sample.three_idle)) =
    [EvFieldByName (Sample.client_of 0);
     EvTransportClose (Sample.transport_of 0);
     EvFieldByName (Sample.stuck_client 1);
     EvTransportClose
       {| tr_id := 1; tr_Close := Some (ErrForeign "close failed") |};
     EvFieldByName (Sample.client_of 2);
     EvTransportClose (Sample.transport_of 2)].
Proof.
  destruct (Legacy_Close_tears_down_then_waits Sample.three_idle
              {| cap := 3;
                 buf := [Some (Sample.client_of 0); Some (Sample.stuck_client 1);
                         Some (Sample.client_of 2)] |} 4)
    as (_ & Hb & _ & Hl).
  - reflexivity.
  - simpl. lia.
  - repeat constructor; discriminate.
  - split; [exact Hb | exact Hl].
Defined.

Lemma Legacy_release_returned (h : nat) (cli : pooledClient) (s : State)
    (ch : chan) :
  heap s !! h = Some cli -> unusable cli = false ->
  clients (pool s) = Some ch -> len ch < cap ch ->
  Legacy.closePooledClient h s =
    (Ret None,
     with_clients (Some {| cap := cap ch; buf := buf ch ++ [pc_Client cli] |}) s).
Proof.
  intros Hh U Hc Hlt. unfold Legacy.closePooledClient, try_send. unfold_prims.
  rewrite Hh, U. cbn [negb]. rewrite Hc. apply Z.ltb_lt in Hlt. rewrite Hlt.
  reflexivity.
Qed.

(** X14: in the older variant a release never clears the handle, so a second
    release through a usable handle queues the same client again: with room
    for two the idle buffer ends with the client twice, and the next two
    calls of [Get] hand that one client out to two handles. *)
Theorem Legacy_double_release_duplicates (net1 net2 : Net) (s : State)
    (h : nat) (c : ClientObj) (ch : chan)
    (Hh : heap s !! h = Some {| pc_Client := Some c; unusable := false |})
    (Hc : clients (pool s) = Some ch)
    (Hb : buf ch = [])
    (Hroom : 2 <= cap ch) :
  let s2 := snd (Legacy.closePooledClient h (snd (Legacy.closePooledClient h s))) in
  let s4 := snd (Legacy.Get net2 (snd (Legacy.Get net1 s2))) in
  idle_buf s2 = [Some c; Some c] /\
  heap s2 = heap s /\
  log s4 = log s /\
  heap s4 = heap s ++ [{| pc_Client := Some c; unusable := false |};
                       {| pc_Client := Some c; unusable := false |}].
Proof.
  cbv zeta.
  rewrite (Legacy_release_returned h _ s ch Hh eq_refl Hc)
    by (unfold len; rewrite Hb; simpl; lia).
  cbn [snd pc_Client]. rewrite Hb. cbn [app].
  set (s1 := with_clients _ s).
  erewrite (Legacy_release_returned h _ s1);
    [| exact Hh | reflexivity | reflexivity | unfold len; simpl; lia].
  subst s1. cbn [snd pc_Client cap buf app].
  unfold Legacy.Get, Legacy.getClients, try_recv, idle_buf. unfold_prims.
  cbn. rewrite <- app_assoc. repeat split.
Qed.

Lemma Legacy_double_release_duplicates_witness :
  let s := with_clients (Some {| cap := 2; buf := [] |})
             (snd (Legacy.Get (Sample.net_ok 0) (init Sample.pool_1_0))) in
  idle_buf (snd (Legacy.closePooledClient 0%nat
                   (snd (Legacy.closePooledClient 0%nat s))))
  = [Some (Sample.client_of 0); Some (Sample.client_of 0)].
Proof.
  intros s.
  destruct (Legacy_double_release_duplicates (Sample.net_ok 1) (Sample.net_ok 2)
              s 0%nat (Sample.client_of 0) {| cap := 2; buf := [] |}
              eq_refl eq_refl eq_refl) as (Hb & _).
  - simpl. lia.
  - exact Hb.
Defined.

(** X15: in the older variant [Get] fails fast in the same two cases: on a
    closed pool with [ErrPoolClosed], and on an open pool with an empty
    buffer, [maxOpen <> 0] and [opened >= maxOpen] with
    [ErrPoolMaxOpenReached]; in both the state, log included, is untouched. *)
Theorem Legacy_Get_fails_fast (net : Net) (s : State) :
  (clients (pool s) = None ->
   Legacy.Get net s = (Ret (None, Some ErrPoolClosed), s)) /\
  (forall ch,
     clients (pool s) = Some ch -> buf ch = [] ->
     maxOpen (pool s) <> 0 -> maxOpen (pool s) <= opened (pool s) ->
     Legacy.Get net s = (Ret (None, Some ErrPoolMaxOpenReached), s)).
Proof.
  split.
  - intros Hc. unfold Legacy.Get, Legacy.getClients. unfold_prims.
    rewrite Hc. reflexivity.
  - intros ch Hc Hb Hn Hle.
    unfold Legacy.Get, Legacy.getClients, Legacy.maxOpenReached, try_recv.
    unfold_prims. rewrite Hc, Hb.
    apply Z.eqb_neq in Hn. apply Z.leb_le in Hle. rewrite Hn, Hle.
    reflexivity.
Qed.

Lemma Legacy_Get_fails_fast_witness :
  Legacy.Get (Sample.net_ok 0) (with_opened 1 (init Sample.pool_1_1)) =
    (Ret (None, Some ErrPoolMaxOpenReached), with_opened 1 (init Sample.pool_1_1)) /\
  Legacy.Get (Sample.net_ok 0) (with_clients None (init Sample.pool_1_1)) =
    (Ret (None, Some ErrPoolClosed), with_clients None (init Sample.pool_1_1)).
Proof.
  split.
  - apply (Legacy_Get_fails_fast (Sample.net_ok 0)
             (with_opened 1 (init Sample.pool_1_1)))
      with (ch := {| cap := 1; buf := [] |}).
    + reflexivity.
    + reflexivity.
    + simpl. lia.
    + simpl. lia.
  - apply (Legacy_Get_fails_fast (Sample.net_ok 0)
             (with_clients None (init Sample.pool_1_1))).
    reflexivity.
Defined.

(** X16: the counter of the older variant.  A dial adds one to [opened] also
    when [maxOpen = 0]; tearing the client down takes it off again only when
    the client has a transport.  For a client whose [Transport] field is
    missing or nil the teardown returns its error before the decrement, and
    the counter stays one too high. *)
Theorem Legacy_counter_round_trip (net : Net) (s : State) (ch : chan)
    (server : string) (socket : TSocket) (c : ClientObj)
    (Hc : clients (pool s) = Some ch)
    (Hb : buf ch = [])
    (Hceil : maxOpen (pool s) = 0 \/ opened (pool s) < maxOpen (pool s))
    (Hdial : dials net (servers (pool s)) server socket)
    (Hfac : clientFactory (pool s) socket = Some c)
    (Hrange : 0 <= opened (pool s) < 2 ^ 32 - 1) :
  let h := length (heap s) in
  let s1 := snd (Legacy.Get net s) in
  let s3 := snd (Legacy.closePooledClient h (snd (MarkUnusable h s1))) in
  fst (Legacy.Get net s) = Ret (Some h, None) /\
  opened (pool s1) = opened (pool s) + 1 /\
  opened (pool s3) =
    match Transport c with
    | FieldTransport _ => opened (pool s)
    | _ => opened (pool s) + 1
    end.
Proof.
  destruct Hdial as (Hpick & Hs & Ho).
  assert (Hgo : (if maxOpen (pool s) =? 0 then false
                 else maxOpen (pool s) <=? opened (pool s)) = false).
  { destruct Hceil as [-> | Hlt]; [reflexivity |].
    destruct (maxOpen (pool s) =? 0); [reflexivity |].
    apply Z.leb_gt. exact Hlt. }
  assert (Hup : wrap32 (opened (pool s) + 1) = opened (pool s) + 1)
    by (apply wrap32_small; lia).
  assert (HG : Legacy.Get net s =
            (Ret (Some (length (heap s)), None),
             with_heap (heap s ++ [{| pc_Client := Some c; unusable := false |}])
               (with_log (log s ++ [EvNewTSocket server;
                                    EvSetTimeout socket (connectTimeout (pool s));
                                    EvOpen socket;
                                    EvSetTimeout socket (readTimeout (pool s));
                                    EvFactory socket])
                  (with_opened (opened (pool s) + 1) s)))).
  { unfold Legacy.Get, Legacy.getClients, Legacy.maxOpenReached,
      Legacy.openClient, try_recv.
    unfold_prims. rewrite Hc, Hb. state_simpl.
    destruct (maxOpen (pool s) =? 0) eqn:E; rewrite ?Hgo; state_simpl;
      rewrite Hpick; state_simpl; rewrite Hs, Ho; state_simpl;
      rewrite Hfac, Hup; unfold with_log, with_opened, with_heap; state_simpl;
      rewrite <- !app_assoc; reflexivity. }
  cbv zeta. rewrite HG. cbn [fst snd].
  split; [reflexivity |]. split; [reflexivity |].
  unfold MarkUnusable, Legacy.closePooledClient. unfold_prims. state_simpl.
  rewrite list_lookup_middle by reflexivity. state_simpl.
  rewrite list_lookup_insert_eq by (rewrite length_app; simpl; lia).
  cbn [unusable negb pc_Client].
  rewrite Legacy_closeClient_some.
  destruct (Transport c); cbv zeta; state_simpl; try reflexivity.
  rewrite Z.add_simpl_r. apply wrap32_small. lia.
Qed.

Lemma Legacy_counter_round_trip_witness :
  let s := init (NewChannelClientPool 1 0 ["10.0.0.1:9090"%string] 100 500
                   (fun socket =>
                      Some {| client_id := 0; Transport := FieldMissing |})) in
  let s1 := snd (Legacy.Get (Sample.net_ok 0) s) in
  opened (pool s1) = 1 /\
  opened (pool (snd (Legacy.closePooledClient 0%nat
                       (snd (MarkUnusable 0%nat s1))))) = 1.
Proof.
  intros s s1.
  destruct (Legacy_counter_round_trip (Sample.net_ok 0) s
              {| cap := 1; buf := [] |} "10.0.0.1:9090"%string
              {| sock_addr := "10.0.0.1:9090"; sock_id := 0 |}
              {| client_id := 0; Transport := FieldMissing |})
    as (_ & H1 & H3).
  - reflexivity.
  - reflexivity.
  - left. reflexivity.
  - repeat split.
  - reflexivity.
  - simpl. lia.
  - split; [exact H1 | exact H3].
Defined.

(** ** An empty server list *)

(** X17: with no server configured, [Get] still serves idle clients and still
    reports a closed pool or a reached ceiling; it panics (division by zero in
    the choice of the server) exactly when it gets as far as dialing, and
    then leaves the state as it was. *)
Theorem Get_without_servers (net : Net) (s : State)
    (Hsrv : servers (pool s) = []) :
  (clients (pool s) = None ->
   Get net s = (Ret (None, Some ErrPoolClosed), s)) /\
  (forall ch c rest,
     clients (pool s) = Some ch -> buf ch = Some c :: rest ->
     fst (Get net s) = Ret (Some (length (heap s)), None)) /\
  (forall ch,
     clients (pool s) = Some ch -> buf ch = [] ->
     Get net s =
       if negb (maxOpen (pool s) =? 0) && (maxOpen (pool s) <=? opened (pool s))
       then (Ret (None, Some ErrPoolMaxOpenReached), s)
       else (Panic, s)).
Proof.
  split; [apply Get_closed |]. split.
  - intros ch c rest Hc Hb. rewrite (Get_reuse net s ch c rest Hc Hb). reflexivity.
  - intros ch Hc Hb. rewrite (Get_empty net s ch Hc Hb).
    unfold openClient. unfold_prims. rewrite Hsrv.
    destruct (negb (maxOpen (pool s) =? 0) && (maxOpen (pool s) <=? opened (pool s)));
      reflexivity.
Qed.

Lemma Get_without_servers_witness :
  Get (Sample.net_ok 0) (init (NewChannelClientPool 1 1 [] 100 500 Sample.factory))
  = (Panic, init (NewChannelClientPool 1 1 [] 100 500 Sample.factory)).
Proof.
  destruct (Get_without_servers (Sample.net_ok 0)
              (init (NewChannelClientPool 1 1 [] 100 500 Sample.factory))
              eq_refl) as (_ & _ & H).
  apply (H {| cap := 1; buf := [] |}); reflexivity.
Defined.

(** ** How far concurrent acquisitions overshoot *)

Lemma count_inflight_bounds (l : list (Net * pc)) :
  0 <= count_inflight l <= Z.of_nat (length l).
Proof.
  induction l as [| t rest IH]; simpl; [lia |].
  destruct (inflight (snd t)); lia.
Qed.

Lemma count_inflight_insert (l : list (Net * pc)) :
  forall (i : nat) (t t' : Net * pc),
    l !! i = Some t ->
    count_inflight (<[i := t']> l) =
      count_inflight l - (if inflight (snd t) then 1 else 0)
                       + (if inflight (snd t') then 1 else 0).
Proof.
  induction l as [| x rest IH]; intros i t t' Hl; [discriminate Hl |].
  destruct i as [| i]; simpl in *.
  - injection Hl as ->. lia.
  - rewrite (IH i t t' Hl). lia.
Qed.

(** One step of a goroutine: it leaves the counter alone, and enters the
    window only below the ceiling; or it leaves the window by adding one. *)
Lemma thread_step_effect (net : Net) (p : pc) (s : State) :
  maxOpen (pool s) <> 0 ->
  let p' := fst (thread_step net p s) in
  let s' := snd (thread_step net p s) in
  maxOpen (pool s') = maxOpen (pool s) /\
  ((opened (pool s') = opened (pool s) /\
    (inflight p' = true ->
     inflight p = true \/ opened (pool s) < maxOpen (pool s))) \/
   (inflight p = true /\ inflight p' = false /\
    opened (pool s') = wrap32 (opened (pool s) + 1))).
Proof.
  intros Hn. cbv zeta.
  destruct p as [| | | socket | socket | rawCli err | r |]; cbn [thread_step].
  - unfold getFromPool, try_recv. unfold_prims.
    destruct (clients (pool s)) as [ch |]; [| cbn; split; [| left]; split; trivial; discriminate].
    destruct (buf ch) as [| [c |] rest]; cbn;
      (split; [reflexivity | left; split; [reflexivity | discriminate]]).
  - apply Z.eqb_neq in Hn. rewrite Hn. cbn [negb andb].
    destruct (Z.leb_spec (maxOpen (pool s)) (opened (pool s))) as [Hfull | Hroom];
      cbn [fst snd]; (split; [reflexivity | left; split; [reflexivity |]]);
      [discriminate | intros _; right; exact Hroom].
  - destruct (pick_server (rand_Int net) (servers (pool s))) as [server |];
      [| cbn; split; [| left]; split; trivial; left; reflexivity].
    destruct (NewTSocket net server) as [socket | e];
      [| cbn; split; [| left]; split; trivial; left; reflexivity].
    destruct (Open net socket) as [e |];
      cbn; (split; [| left]; split; trivial; left; reflexivity).
  - apply Z.eqb_neq in Hn. rewrite Hn. cbn.
    split; [reflexivity |]. right. repeat split.
  - cbn. split; [| left]; split; trivial; discriminate.
  - cbn. split; [| left]; split; trivial; discriminate.
  - cbn. split; [| left]; split; trivial; discriminate.
  - cbn. split; [| left]; split; trivial; discriminate.
Qed.

Lemma sched_overshoot (m n : Z) (c : Config) (i : nat) :
  m <> 0 -> m + n <= 2 ^ 32 -> 1 <= n ->
  maxOpen (pool (shared c)) = m /\
  Z.of_nat (length (threads c)) = n /\
  0 <= opened (pool (shared c)) /\
  opened (pool (shared c)) + count_inflight (threads c) <= m + n - 1 ->
  maxOpen (pool (shared (sched c i))) = m /\
  Z.of_nat (length (threads (sched c i))) = n /\
  0 <= opened (pool (shared (sched c i))) /\
  opened (pool (shared (sched c i))) + count_inflight (threads (sched c i))
    <= m + n - 1.
Proof.
  intros Hm Hsum Hn (HM & HN & H0 & Hinv).
  unfold sched.
  destruct (threads c !! i) as [[net p] |] eqn:Hl; [| repeat split; assumption].
  assert (HmS : maxOpen (pool (shared c)) <> 0) by congruence.
  pose proof (thread_step_effect net p (shared c) HmS) as Heff.
  destruct (thread_step net p (shared c)) as [p' s'].
  cbv zeta in Heff. cbn [fst snd] in Heff. cbn [shared threads].
  rewrite length_insert, (count_inflight_insert _ i (net, p) (net, p') Hl).
  cbn [snd].
  pose proof (count_inflight_bounds (threads c)) as Hb.
  assert (Hp : inflight p = true -> 1 <= count_inflight (threads c)).
  { intros Hp.
    pose proof (count_inflight_insert _ i (net, p) (net, PcPanic) Hl) as E.
    pose proof (count_inflight_bounds (<[i := (net, PcPanic)]> (threads c))) as B.
    cbn [snd inflight] in E. rewrite Hp in E. lia. }
  destruct Heff as [Hmax [[Ho Hin] | (Hp1 & Hp2 & Ho)]].
  - split; [congruence |]. split; [exact HN |]. rewrite Ho.
    split; [exact H0 |].
    destruct (inflight p') eqn:E'; destruct (inflight p) eqn:E; try lia.
    destruct (Hin eq_refl) as [Hc | Hlt]; [discriminate |].
    pose proof (count_inflight_insert _ i (net, p) (net, PcDial) Hl) as E1.
    pose proof (count_inflight_bounds (<[i := (net, PcDial)]> (threads c))) as B1.
    rewrite length_insert in B1. cbn [snd inflight] in E1. rewrite E in E1. lia.
  - specialize (Hp Hp1). rewrite Hp1, Hp2, Ho.
    rewrite wrap32_small by lia.
    split; [congruence |]. split; [exact HN |]. lia.
Qed.

(** X18: how far the race in [openClient] can go.  When [n >= 1] goroutines
    call [Get] on a pool with a ceiling, whatever the schedule and whatever
    the network answers, [opened] stays between 0 and [maxOpen + n - 1]: each
    goroutine that read the counter below the ceiling adds at most one. *)
Theorem concurrent_overshoot_bounded (schedule : list nat) (nets : list Net)
    (s : State)
    (Hm : maxOpen (pool s) <> 0)
    (Hn : (0 < length nets)%nat)
    (Hsum : maxOpen (pool s) + Z.of_nat (length nets) <= 2 ^ 32)
    (Hle : 0 <= opened (pool s) <= maxOpen (pool s)) :
  let c := interleave schedule (spawn nets s) in
  maxOpen (pool (shared c)) = maxOpen (pool s) /\
  0 <= opened (pool (shared c))
    <= maxOpen (pool s) + Z.of_nat (length nets) - 1.
Proof.
  cbv zeta.
  assert (Hgen : forall sch c,
            maxOpen (pool (shared c)) = maxOpen (pool s) /\
            Z.of_nat (length (threads c)) = Z.of_nat (length nets) /\
            0 <= opened (pool (shared c)) /\
            opened (pool (shared c)) + count_inflight (threads c)
              <= maxOpen (pool s) + Z.of_nat (length nets) - 1 ->
            maxOpen (pool (shared (interleave sch c))) = maxOpen (pool s) /\
            Z.of_nat (length (threads (interleave sch c))) = Z.of_nat (length nets) /\
            0 <= opened (pool (shared (interleave sch c))) /\
            opened (pool (shared (interleave sch c)))
              + count_inflight (threads (interleave sch c))
              <= maxOpen (pool s) + Z.of_nat (length nets) - 1).
  { induction sch as [| i sch IH]; intros c Hc; [exact Hc |].
    cbn [interleave fold_left]. fold (interleave sch (sched c i)).
    apply IH. apply sched_overshoot; try assumption; lia. }
  destruct (Hgen schedule (spawn nets s)) as (HM & _ & H0 & Hinv).
  - cbn [spawn shared threads]. rewrite length_map.
    assert (Hzero : count_inflight (map (fun n => (n, PcGetFromPool)) nets) = 0).
    { clear. induction nets as [| x l IH]; simpl; [reflexivity | exact IH]. }
    rewrite Hzero. repeat split; lia.
  - pose proof (count_inflight_bounds
                  (threads (interleave schedule (spawn nets s)))) as Hb.
    split; [exact HM |]. lia.
Qed.

Lemma concurrent_overshoot_bounded_witness :
  let c := interleave [0; 1; 0; 1; 0; 1; 0; 1; 0; 1; 0; 1]%nat
             (spawn [Sample.net_ok 0; Sample.net_ok 1] (init Sample.pool_1_1)) in
  0 <= opened (pool (shared c)) <= 1 + 2 - 1.
Proof.
  intros c.
  destruct (concurrent_overshoot_bounded [0; 1; 0; 1; 0; 1; 0; 1; 0; 1; 0; 1]%nat
              [Sample.net_ok 0; Sample.net_ok 1] (init Sample.pool_1_1))
    as [_ H].
  - simpl. lia.
  - simpl. lia.
  - simpl. lia.
  - simpl. lia.
  - exact H.
Defined.
